(** * TableHunter: the SQL object extraction pipeline

    A shallow embedding of [TableHunter_Script.py] (the functions
    [load_config], [clean_sql], [extract_objects], [remove_redundancy],
    [categorize], [extract_stored_procedures] and [save_output], and the
    lines of [main] that chain them) together with the part of Python's
    [re] and [str] that those functions call.

    Text.  A Python [str] is modelled as [string]; the regular-expression
    engine walks it as a [list ascii].  The character classes and the case
    maps below are Python's on the code points 0..127, which is the
    repertoire the model covers; what [re] and [str] do on code points
    above 127 (Unicode case folding, Unicode spaces and letters) is outside
    the model.

    Sets and dictionaries.  A Python [set] of names is a [gset string], the
    [defaultdict(list)] of [categorize] is a [gmap string (list string)].
    Iterating over a set visits [elements] of it; the loops are also given
    over an explicit visiting order, so that independence of that order can
    be stated.

    Exceptions.  The operations that can raise ([l[-1]], the unpacking of
    a tuple) return a [result]; the functions that use them are
    written in the error monad.

    Files.  [load_config] is a function of the text that the opened file
    delivers (newlines already translated to LF), [save_output] gives the
    text handed to the successive [write] calls; for the latter the
    dictionary is a list of entries in the order of its keys.  The file
    system, the log and the message boxes of [main] are outside the
    model. *)

From Stdlib Require Import Ascii String List Bool Arith Lia DecimalString.
From stdpp Require Import gmap strings list sorting.

(** ** Characters *)

Module Chr.

Definition code (c : ascii) : nat := nat_of_ascii c.

Definition between (lo hi : nat) (c : ascii) : bool :=
  (lo <=? code c) && (code c <=? hi).

(** [a-z], [A-Z], [0-9]. *)
Definition is_lower (c : ascii) : bool := between 97 122 c.
Definition is_upper (c : ascii) : bool := between 65 90 c.
Definition is_digit (c : ascii) : bool := between 48 57 c.

(** [str.isspace] and the class [\s] of a [str] pattern: TAB, LF, VT, FF,
    CR, the four separators FS, GS, RS, US, and the space. *)
Definition is_space (c : ascii) : bool := between 9 13 c || between 28 32 c.

(** The class [\w]: letters, digits and the underscore. *)
Definition is_word (c : ascii) : bool :=
  is_lower c || is_upper c || is_digit c || Ascii.eqb c "_"%char.

(** [str.lower] and [str.upper] on one character. *)
Definition lower (c : ascii) : ascii :=
  if is_upper c then ascii_of_nat (code c + 32) else c.
Definition upper (c : ascii) : ascii :=
  if is_lower c then ascii_of_nat (code c - 32) else c.

End Chr.

(** ** The methods of [str] the program calls *)

Module Str.

Definition chars (s : string) : list ascii := list_ascii_of_string s.
Definition of_chars (l : list ascii) : string := string_of_list_ascii l.

(** [s.lower()], [s.upper()]. *)
Definition lower (s : string) : string := of_chars (map Chr.lower (chars s)).
Definition upper (s : string) : string := of_chars (map Chr.upper (chars s)).

(** [s.strip()]: white space removed at both ends. *)
Fixpoint lstrip_chars (l : list ascii) : list ascii :=
  match l with
  | c :: l' => if Chr.is_space c then lstrip_chars l' else l
  | [] => []
  end.
Definition strip_chars (l : list ascii) : list ascii :=
  rev (lstrip_chars (rev (lstrip_chars l))).
Definition strip (s : string) : string := of_chars (strip_chars (chars s)).

(** [s.replace(c, "")] for a one-character [c]: every occurrence removed. *)
Definition remove_char (c : ascii) (s : string) : string :=
  of_chars (List.filter (fun x => negb (Ascii.eqb x c)) (chars s)).

(** [s.split(c)] for a one-character separator [c]. *)
Fixpoint split_chars (sep : ascii) (l : list ascii) : list (list ascii) :=
  match l with
  | [] => [[]]
  | c :: l' =>
      if Ascii.eqb c sep then [] :: split_chars sep l'
      else match split_chars sep l' with
           | seg :: segs => (c :: seg) :: segs
           | [] => [[c]]
           end
  end.
Definition split (sep : ascii) (s : string) : list string :=
  map of_chars (split_chars sep (chars s)).

(** [c in s] for a one-character [c]. *)
Definition contains (c : ascii) (s : string) : bool :=
  existsb (Ascii.eqb c) (chars s).

(** [s.startswith(p)]. *)
Fixpoint starts_chars (p l : list ascii) : bool :=
  match p, l with
  | [], _ => true
  | a :: p', b :: l' => Ascii.eqb a b && starts_chars p' l'
  | _ :: _, [] => false
  end.
Definition startswith (p s : string) : bool := starts_chars (chars p) (chars s).

End Str.

(** ** Exceptions *)

Inductive exn := IndexError | ValueError.

Inductive result (A : Type) :=
| Ok (a : A)
| Raise (e : exn).
Arguments Ok {A} a.
Arguments Raise {A} e.

Global Instance result_ret : MRet result := fun A a => Ok a.
Global Instance result_bind : MBind result := fun A B f r =>
  match r with
  | Ok a => f a
  | Raise e => Raise e
  end.

(** A [for] loop that threads an accumulator and stops at the first raise. *)
Fixpoint for_each {A S} (body : S -> A -> result S) (l : list A) (acc : S) : result S :=
  match l with
  | [] => Ok acc
  | x :: l' => acc' ← body acc x; for_each body l' acc'
  end.

(** [any(f(x) for x in l)]: the first true answer ends the iteration. *)
Fixpoint any_of {A} (f : A -> result bool) (l : list A) : result bool :=
  match l with
  | [] => Ok false
  | x :: l' => b ← f x; if b : bool then Ok true else any_of f l'
  end.

(** [l[-1]]. *)
Definition item_last {A} (l : list A) : result A :=
  match last l with
  | Some x => Ok x
  | None => Raise IndexError
  end.

(** ** The regular expressions of [re]

    The patterns of the program use literals, character sets, [\s], [\w],
    [.], [\b], concatenation, alternation, optional groups, the greedy
    [+] and [*] and the lazy [*?] over one-character atoms, and capture
    groups.  [run] is the backtracking matcher of [re]: alternatives are
    tried from left to right, a greedy repetition tries the longest run
    first, a lazy one the shortest, and the first way that lets the rest
    of the pattern succeed is the match. *)

Module Re.

Record flags := Flags { ignorecase : bool; dotall : bool }.

(** What a single character is tested against. *)
Inductive item :=
| Lit (c : ascii)
| Range (lo hi : ascii)
| Space
| Word
| Dot.

Inductive regex :=
| Eps
| Chars (set : list item)
| Boundary
| Cat (r1 r2 : regex)
| Alt (r1 r2 : regex)
| Opt (r : regex)
| Plus (set : list item)
| Star (set : list item)
| StarLazy (set : list item)
| Group (n : nat) (r : regex).

Definition newline : ascii := "010"%char.

Definition item_is (fl : flags) (i : item) (c : ascii) : bool :=
  match i with
  | Lit a => Ascii.eqb c a
  | Range lo hi => Chr.between (Chr.code lo) (Chr.code hi) c
  | Space => Chr.is_space c
  | Word => Chr.is_word c
  | Dot => dotall fl || negb (Ascii.eqb c newline)
  end.

(** Under IGNORECASE a character is accepted when one of its case
    variants is. *)
Definition item_matches (fl : flags) (i : item) (c : ascii) : bool :=
  item_is fl i c
  || (ignorecase fl && (item_is fl i (Chr.lower c) || item_is fl i (Chr.upper c))).

Definition set_matches (fl : flags) (set : list item) (c : ascii) : bool :=
  existsb (fun i => item_matches fl i c) set.

(** The text captured by each group that took part in the match. *)
Abbreviation caps := (gmap nat (list ascii)).

(** [\b]: exactly one of the characters around the cursor is a word
    character (the ends of the text count as non-word). *)
Definition word_before (prev : option ascii) : bool :=
  match prev with Some c => Chr.is_word c | None => false end.
Definition word_after (inp : list ascii) : bool :=
  match inp with c :: _ => Chr.is_word c | [] => false end.
Definition at_boundary (prev : option ascii) (inp : list ascii) : bool :=
  xorb (word_before prev) (word_after inp).

(** A continuation receives the character before the cursor, the text from
    the cursor on and the captures so far. *)
Definition cont := option ascii -> list ascii -> caps -> option (list ascii * caps).

Definition accept : cont := fun _ inp g => Some (inp, g).

Fixpoint many_greedy (p : ascii -> bool) (k : cont)
    (prev : option ascii) (inp : list ascii) (g : caps) : option (list ascii * caps) :=
  match inp with
  | c :: inp' =>
      if p c then
        match many_greedy p k (Some c) inp' g with
        | Some r => Some r
        | None => k prev inp g
        end
      else k prev inp g
  | [] => k prev inp g
  end.

Fixpoint many_lazy (p : ascii -> bool) (k : cont)
    (prev : option ascii) (inp : list ascii) (g : caps) : option (list ascii * caps) :=
  match k prev inp g with
  | Some r => Some r
  | None =>
      match inp with
      | c :: inp' => if p c then many_lazy p k (Some c) inp' g else None
      | [] => None
      end
  end.

(** The text between two cursors. *)
Definition consumed (inp rest : list ascii) : list ascii :=
  take (length inp - length rest) inp.

Fixpoint run (fl : flags) (r : regex) (k : cont)
    (prev : option ascii) (inp : list ascii) (g : caps) : option (list ascii * caps) :=
  match r with
  | Eps => k prev inp g
  | Chars set =>
      match inp with
      | c :: inp' => if set_matches fl set c then k (Some c) inp' g else None
      | [] => None
      end
  | Boundary => if at_boundary prev inp then k prev inp g else None
  | Cat r1 r2 => run fl r1 (run fl r2 k) prev inp g
  | Alt r1 r2 =>
      match run fl r1 k prev inp g with
      | Some res => Some res
      | None => run fl r2 k prev inp g
      end
  | Opt r1 =>
      match run fl r1 k prev inp g with
      | Some res => Some res
      | None => k prev inp g
      end
  | Plus set =>
      match inp with
      | c :: inp' =>
          if set_matches fl set c
          then many_greedy (set_matches fl set) k (Some c) inp' g
          else None
      | [] => None
      end
  | Star set => many_greedy (set_matches fl set) k prev inp g
  | StarLazy set => many_lazy (set_matches fl set) k prev inp g
  | Group n r1 =>
      run fl r1 (fun prev' inp' g' => k prev' inp' (<[n := consumed inp inp']> g')) prev inp g
  end.

(** The match of [r] that starts at the cursor, if there is one: the text
    after the match and the captures. *)
Definition match_at (fl : flags) (r : regex)
    (prev : option ascii) (inp : list ascii) : option (list ascii * caps) :=
  run fl r accept prev inp ∅.

(** The successive matches, scanning from left to right: at each position
    where no match is in progress the pattern is tried; a match is
    recorded and the scan resumes where it ends ([skip] counts the
    characters of a recorded match still to pass over); a character at which
    nothing matches is kept.  The patterns of this program read at least
    one character wherever they match (shown below), so the rules of [re]
    for empty matches never apply. *)
Inductive piece :=
| Kept (c : ascii)
| Found (text : list ascii) (g : caps).

Fixpoint scan (fl : flags) (r : regex) (skip : nat)
    (prev : option ascii) (inp : list ascii) : list piece :=
  match inp with
  | [] => []
  | c :: inp' =>
      match skip with
      | S n => scan fl r n (Some c) inp'
      | O =>
          match match_at fl r prev inp with
          | Some (rest, g) =>
              Found (consumed inp rest) g
                :: scan fl r (length inp - length rest - 1) (Some c) inp'
          | None => Kept c :: scan fl r 0 (Some c) inp'
          end
      end
  end.

Definition matches_of (ps : list piece) : list (list ascii * caps) :=
  omap (fun p => match p with Found w g => Some (w, g) | Kept _ => None end) ps.
Definition kept_of (ps : list piece) : list ascii :=
  omap (fun p => match p with Kept c => Some c | Found _ _ => None end) ps.

(** The group [n] of a match, [''] when the group took no part. *)
Definition group (g : caps) (n : nat) : string :=
  Str.of_chars (default [] (g !! n)).

(** [re.findall] for a pattern with [ngroups] groups, [ngroups >= 2]: one
    tuple of the groups per match. *)
Definition findall (fl : flags) (r : regex) (ngroups : nat) (s : string) : list (list string) :=
  map (fun m => map (group m.2) (seq 1 ngroups))
      (matches_of (scan fl r 0 None (Str.chars s))).

(** [re.findall] for a pattern with one group: the group of each match. *)
Definition findall1 (fl : flags) (r : regex) (s : string) : list string :=
  map (fun m => group m.2 1) (matches_of (scan fl r 0 None (Str.chars s))).

(** [re.sub(r, '', s)]: the text outside the matches. *)
Definition sub_empty (fl : flags) (r : regex) (s : string) : string :=
  Str.of_chars (kept_of (scan fl r 0 None (Str.chars s))).

(** Building blocks to write patterns down as the source spells them. *)
Definition lit (s : string) : regex :=
  foldr (fun c r => Cat (Chars [Lit c]) r) Eps (Str.chars s).
Definition cat (rs : list regex) : regex := foldr Cat Eps rs.
Fixpoint alt (r : regex) (rs : list regex) : regex :=
  match rs with
  | [] => r
  | r' :: rs' => Alt r (alt r' rs')
  end.

End Re.

(** ** The program *)

Import Re.

(** [BLOCK_KEYWORDS]. *)
Definition BLOCK_KEYWORDS : gset string := list_to_set [
  "IF"; "EXISTS"; "THEN"; "ELSE"; "END"; "CASE"; "WHEN"; "ON"; "USING"; "VALUES";
  "SELECT"; "WHERE"; "GROUP"; "ORDER"; "HAVING"; "BY"; "AS";
  "AND"; "OR"; "NOT"; "IN"; "IS"; "NULL"; "LIKE"; "SET";
  "BEGIN"; "DECLARE"; "RETURN"; "LOOP"; "FOR"; "WHILE";
  "BETWEEN"; "DISTINCT"; "TOP"; "LIMIT"; "FETCH"; "OVER";
  "PARTITION"; "INNER"; "LEFT"; "RIGHT"; "FULL"; "OUTER"; "CROSS";
  "UNION"; "EXCEPT"; "INTERSECT"; "ALL"; "WITH";
  "DESC"; "ASC"; "INTO"
].

(** *** [clean_sql] *)

(** [/\*.*?\*/] with DOTALL. *)
Definition block_comment : regex :=
  cat [lit "/"; lit "*"; StarLazy [Dot]; lit "*"; lit "/"].
Definition block_flags : flags := Flags false true.

(** [--.*] with no flag. *)
Definition line_comment : regex := cat [lit "--"; Star [Dot]].
Definition line_flags : flags := Flags false false.

Definition clean_sql (sql_text : string) : string :=
  let sql_text := sub_empty block_flags block_comment sql_text in
  let sql_text := sub_empty line_flags line_comment sql_text in
  Str.lower sql_text.

(** *** [extract_objects] *)

(** [\s+] and [[a-z0-9_\.]+]. *)
Definition ws : regex := Plus [Space].
Definition ident_set : list item :=
  [Range "a" "z"; Range "0" "9"; Lit "_"; Lit "."]%char.
Definition ident : regex := Plus ident_set.

(** [(?:transient\s+|temporary\s+)?] and [(?:or\s+replace\s+)?]. *)
Definition modifier : regex :=
  Opt (Alt (cat [lit "transient"; ws]) (cat [lit "temporary"; ws])).
Definition or_replace : regex := Opt (cat [lit "or"; ws; lit "replace"; ws]).

(** The eleven alternatives of the pattern, in the order of the source;
    the alternative number [n] captures into the group [n]. *)
Definition rule_from : regex := cat [Boundary; lit "from"; ws; Group 1 ident].
Definition rule_join : regex := cat [Boundary; lit "join"; ws; Group 2 ident].
Definition rule_update : regex := cat [Boundary; lit "update"; ws; Group 3 ident].
Definition rule_insert : regex :=
  cat [Boundary; lit "insert"; ws; lit "into"; ws; modifier; Group 4 ident].
Definition rule_merge : regex :=
  cat [Boundary; lit "merge"; ws; lit "into"; ws; modifier; Group 5 ident].
Definition rule_delete : regex :=
  cat [Boundary; lit "delete"; ws; lit "from"; ws; Group 6 ident].
Definition rule_truncate : regex :=
  cat [Boundary; lit "truncate"; ws; lit "table"; ws; modifier; Group 7 ident].
Definition rule_alter : regex :=
  cat [Boundary; lit "alter"; ws; lit "table"; ws; modifier; Group 8 ident].
Definition rule_create_table : regex :=
  cat [Boundary; lit "create"; ws; or_replace; modifier; lit "table"; ws; Group 9 ident].
Definition rule_create_view : regex :=
  cat [Boundary; lit "create"; ws; or_replace; lit "view"; ws; Group 10 ident].
Definition rule_drop : regex :=
  cat [Boundary; lit "drop"; ws; lit "table"; ws; modifier; Group 11 ident].

Definition rules : list regex :=
  [rule_from; rule_join; rule_update; rule_insert; rule_merge; rule_delete;
   rule_truncate; rule_alter; rule_create_table; rule_create_view; rule_drop].

Definition object_pattern : regex :=
  alt rule_from [rule_join; rule_update; rule_insert; rule_merge; rule_delete;
                 rule_truncate; rule_alter; rule_create_table; rule_create_view;
                 rule_drop].

(** IGNORECASE | VERBOSE; VERBOSE only changes how the pattern is written. *)
Definition object_flags : flags := Flags true false.

(** [obj.strip().replace(";", "").upper()]. *)
Definition cleaned_name (obj : string) : string :=
  Str.upper (Str.remove_char ";" (Str.strip obj)).

(** [name.split(".")[-1]]. *)
Definition last_segment (name : string) : result string :=
  item_last (Str.split "." name).

(** The body of the inner loop: one group of one match. *)
Definition add_object (objects : gset string) (obj : string) : result (gset string) :=
  if decide (obj = "") then Ok objects
  else
    let cleaned := cleaned_name obj in
    seg ← last_segment cleaned;
    if decide (seg ∈ BLOCK_KEYWORDS) then Ok objects
    else Ok ({[cleaned]} ∪ objects).

Definition extract_objects (sql_text : string) : result (gset string) :=
  let matches := findall object_flags object_pattern 11 sql_text in
  for_each (fun objects m => for_each add_object m objects) matches ∅.

(** *** [remove_redundancy] *)

Definition has_dot (obj : string) : Prop := Str.contains "." obj = true.
Global Instance has_dot_dec obj : Decision (has_dot obj).
Proof. unfold has_dot. apply _. Defined.

(** [any(schema_obj.split(".")[-1] == obj for schema_obj in schema_objs)],
    the set being visited in the order [visit]. *)
Definition shadowed (visit : list string) (obj : string) : result bool :=
  any_of (fun schema_obj => seg ← last_segment schema_obj; Ok (bool_decide (seg = obj))) visit.

(** The [for obj in noschema_objs] loop, both sets visited in a given
    order. *)
Definition resolve_loop (schema_visit noschema_visit : list string)
    (cleaned_objects : gset string) : result (gset string) :=
  for_each
    (fun cleaned_objects obj =>
       b ← shadowed schema_visit obj;
       if b : bool then Ok cleaned_objects else Ok ({[obj]} ∪ cleaned_objects))
    noschema_visit cleaned_objects.

Definition remove_redundancy (objects : gset string) : result (gset string) :=
  let schema_objs : gset string := filter has_dot objects in
  let noschema_objs : gset string := filter (fun obj => ¬ has_dot obj) objects in
  let cleaned_objects := schema_objs in
  resolve_loop (elements schema_objs) (elements noschema_objs) cleaned_objects.

(** *** [categorize] *)

(** [categories[label].append(full_obj)] on a [defaultdict(list)]. *)
Definition append_to (label full_obj : string)
    (categories : gmap string (list string)) : gmap string (list string) :=
  <[label := default [] (categories !! label) ++ [full_obj]]> categories.

Definition OTHER : string := "OTHER Table/Views/SP's".

(** The body of the loop. *)
Definition categorize_step (categories : gmap string (list string)) (full_obj : string)
    : result (gmap string (list string)) :=
  table_name ← last_segment full_obj;
  if Str.startswith "LP_" table_name then Ok (append_to "LP_OBJECTS" full_obj categories)
  else if Str.startswith "DDT_" table_name then Ok (append_to "DDT_OBJECTS" full_obj categories)
  else if Str.startswith "E_" table_name then Ok (append_to "E_OBJECTS" full_obj categories)
  else if Str.startswith "SA_" table_name then Ok (append_to "SA_OBJECTS" full_obj categories)
  else if Str.startswith "DW_" table_name then Ok (append_to "DW_OBJECTS" full_obj categories)
  else Ok (append_to OTHER full_obj categories).

(** The loop over the names in a given order, and over a set. *)
Definition categorize_visit (visit : list string) : result (gmap string (list string)) :=
  for_each categorize_step visit ∅.

Definition categorize (objects : gset string) : result (gmap string (list string)) :=
  categorize_visit (elements objects).

(** *** [extract_stored_procedures] *)

(** [[\w\.$]+]. *)
Definition proc_set : list item := [Word; Lit "."; Lit "$"]%char.
Definition proc_ident : regex := Plus proc_set.

(** [create\s+(or\s+replace\s+)?procedure\s+([\w\.$]+)]. *)
Definition create_pattern : regex :=
  cat [lit "create"; ws; Opt (Group 1 (cat [lit "or"; ws; lit "replace"; ws]));
       lit "procedure"; ws; Group 2 proc_ident].

(** [\b(?:exec|execute|call)\s+([\w\.$]+)]. *)
Definition call_pattern : regex :=
  cat [Boundary; alt (lit "exec") [lit "execute"; lit "call"]; ws; Group 1 proc_ident].

Definition proc_flags : flags := Flags true false.

(** [sorted] on a list of distinct strings: the order of [str] is the
    lexicographic order of the code points. *)
Definition sorted (l : list string) : list string := merge_sort String.le l.

Definition extract_stored_procedures (sql_text : string) : result (list string) :=
  let procedures : gset string := ∅ in
  procedures ←
    for_each
      (fun (procedures : gset string) t =>
         match t with
         | [_; sp] => Ok ({[Str.upper sp]} ∪ procedures)
         | _ => Raise ValueError
         end)
      (findall proc_flags create_pattern 2 sql_text) procedures;
  procedures ←
    for_each
      (fun (procedures : gset string) sp => Ok ({[Str.upper sp]} ∪ procedures))
      (findall1 proc_flags call_pattern sql_text) procedures;
  Ok (sorted (elements procedures)).

(** *** The core of [main]: lines 167 to 173 *)

Definition STORED_PROCEDURES : string := "STORED_PROCEDURES".

Definition pipeline (sql_text : string) : result (gmap string (list string)) :=
  let cleaned := clean_sql sql_text in
  objects ← extract_objects cleaned;
  objects ← remove_redundancy objects;
  categories ← categorize objects;
  sp_list ← extract_stored_procedures cleaned;
  Ok (<[STORED_PROCEDURES := sp_list]> categories).

(** *** [load_config] *)

(** [s.split(c, 1)] for a one-character separator [c]: cut at the first
    [c], if there is one. *)
Fixpoint split1_chars (sep : ascii) (l : list ascii) : list (list ascii) :=
  match l with
  | [] => [[]]
  | c :: l' =>
      if Ascii.eqb c sep then [[]; l']
      else match split1_chars sep l' with
           | seg :: segs => (c :: seg) :: segs
           | [] => [[c]]
           end
  end.
Definition split1 (sep : ascii) (s : string) : list string :=
  map Str.of_chars (split1_chars sep (Str.chars s)).

(** The lines a text file yields when it is iterated: each line with the
    newline that ends it, the last one maybe without. *)
Fixpoint file_lines (l : list ascii) : list (list ascii) :=
  match l with
  | [] => []
  | c :: l' =>
      if Ascii.eqb c newline then [c] :: file_lines l'
      else match file_lines l' with
           | line :: lines => (c :: line) :: lines
           | [] => [[c]]
           end
  end.

(** The body of the loop: one line of the file. *)
Definition config_line (config : gmap string string) (line : string)
    : result (gmap string string) :=
  if Str.contains "=" line then
    match split1 "=" (Str.strip line) with
    | [key; value] => Ok (<[Str.strip key := Str.strip value]> config)
    | _ => Raise ValueError
    end
  else Ok config.

(** [load_config], from the text the opened file delivers. *)
Definition load_config (text : string) : result (gmap string string) :=
  let config : gmap string string := ∅ in
  for_each config_line (map Str.of_chars (file_lines (Str.chars text))) config.

(** *** [save_output] and lines 167 to 175 of [main] *)

(** A [dict] of lists with the order of its keys: a new key goes to the
    end, a key already there keeps its place. *)
Fixpoint od_update (key : string) (f : list string -> list string)
    (d : list (string * list string)) : list (string * list string) :=
  match d with
  | [] => [(key, f [])]
  | (k, v) :: d' =>
      if String.eqb k key then (k, f v) :: d' else (k, v) :: od_update key f d'
  end.

(** [categories[label].append(full_obj)] and [categories[key] = value]. *)
Definition od_append_to (label full_obj : string) (categories : list (string * list string))
    : list (string * list string) :=
  od_update label (fun l => l ++ [full_obj]) categories.


(** The loop of [categorize], on the ordered [dict]. *)
Definition categorize_ordered_step (categories : list (string * list string))
    (full_obj : string) : result (list (string * list string)) :=
  table_name ← last_segment full_obj;
  if Str.startswith "LP_" table_name then Ok (od_append_to "LP_OBJECTS" full_obj categories)
  else if Str.startswith "DDT_" table_name then Ok (od_append_to "DDT_OBJECTS" full_obj categories)
  else if Str.startswith "E_" table_name then Ok (od_append_to "E_OBJECTS" full_obj categories)
  else if Str.startswith "SA_" table_name then Ok (od_append_to "SA_OBJECTS" full_obj categories)
  else if Str.startswith "DW_" table_name then Ok (od_append_to "DW_OBJECTS" full_obj categories)
  else Ok (od_append_to OTHER full_obj categories).

Definition categorize_ordered (visit : list string) : result (list (string * list string)) :=
  for_each categorize_ordered_step visit [].

(** The end of a line, ["\n"]. *)
Definition EOL : string := String newline "".

(** The texts of successive [f.write] calls, one after the other. *)
Definition written (texts : list string) : string := foldr String.append "" texts.

(** [str(n)] for a length. *)
Definition decimal (n : nat) : string := NilEmpty.string_of_uint (Nat.to_uint n).


(** What the body of the outer loop writes for one entry. *)
Definition save_section (category : string) (items : list string) : string :=
  category +:+ " (" +:+ decimal (length items) +:+ " items)" +:+ EOL
  +:+ written (map (fun item => "  - " +:+ item +:+ EOL) (sorted items))
  +:+ EOL.



(** * The vocabulary of the properties *)

(** ** Patterns, read declaratively *)

(** The character before the cursor once [w] has been read. *)
Definition last_char (prev : option ascii) (w : list ascii) : option ascii :=
  match last w with
  | Some c => Some c
  | None => prev
  end.

(** A cursor: the character before it, the text after it, the captures. *)
Definition cfg : Type := option ascii * list ascii * caps.

(** [reach fl r c c']: the pattern [r] can take the cursor from [c] to
    [c'], whatever the priorities among the ways to do so. *)
Inductive reach (fl : flags) : regex -> cfg -> cfg -> Prop :=
| reach_eps c : reach fl Eps c c
| reach_chars set prev a inp g :
    set_matches fl set a = true ->
    reach fl (Chars set) (prev, a :: inp, g) (Some a, inp, g)
| reach_boundary prev inp g :
    at_boundary prev inp = true ->
    reach fl Boundary (prev, inp, g) (prev, inp, g)
| reach_cat r1 r2 c1 c2 c3 :
    reach fl r1 c1 c2 -> reach fl r2 c2 c3 -> reach fl (Cat r1 r2) c1 c3
| reach_alt_l r1 r2 c1 c2 : reach fl r1 c1 c2 -> reach fl (Alt r1 r2) c1 c2
| reach_alt_r r1 r2 c1 c2 : reach fl r2 c1 c2 -> reach fl (Alt r1 r2) c1 c2
| reach_opt_in r c1 c2 : reach fl r c1 c2 -> reach fl (Opt r) c1 c2
| reach_opt_out r c : reach fl (Opt r) c c
| reach_plus set prev w inp g :
    w ≠ [] -> Forall (fun a => set_matches fl set a = true) w ->
    reach fl (Plus set) (prev, w ++ inp, g) (last_char prev w, inp, g)
| reach_star set prev w inp g :
    Forall (fun a => set_matches fl set a = true) w ->
    reach fl (Star set) (prev, w ++ inp, g) (last_char prev w, inp, g)
| reach_star_lazy set prev w inp g :
    Forall (fun a => set_matches fl set a = true) w ->
    reach fl (StarLazy set) (prev, w ++ inp, g) (last_char prev w, inp, g)
| reach_group n r prev inp g prev' inp' g' :
    reach fl r (prev, inp, g) (prev', inp', g') ->
    reach fl (Group n r) (prev, inp, g) (prev', inp', <[n := consumed inp inp']> g').

(** Patterns that read at least one character wherever they match. *)
Fixpoint consuming (r : regex) : bool :=
  match r with
  | Chars _ | Plus _ => true
  | Cat r1 r2 => consuming r1 || consuming r2
  | Alt r1 r2 => consuming r1 && consuming r2
  | Group _ r1 => consuming r1
  | _ => false
  end.

(** Patterns with no capture group. *)
Fixpoint groupless (r : regex) : bool :=
  match r with
  | Group _ _ => false
  | Cat r1 r2 | Alt r1 r2 => groupless r1 && groupless r2
  | Opt r1 => groupless r1
  | _ => true
  end.

(** Patterns with no [\b]. *)
Fixpoint boundary_free (r : regex) : bool :=
  match r with
  | Boundary => false
  | Cat r1 r2 | Alt r1 r2 => boundary_free r1 && boundary_free r2
  | Opt r1 | Group _ r1 => boundary_free r1
  | _ => true
  end.

(** A continuation that does not look at the character before the
    cursor. *)
Definition blind (k : cont) : Prop := forall a a' b c, k a b c = k a' b c.

(** The text [rest] does not go on with a character of the class [p]. *)
Definition stops_at (p : ascii -> bool) (rest : list ascii) : Prop :=
  match rest with
  | [] => True
  | c :: _ => p c = false
  end.

(** An identifier that immediately follows a phrase: the text splits into
    what stands before, the phrase (read by its pattern, with the white
    space that ends it), the identifier (a non-empty run of characters of
    the class [cls] that the next character does not continue), and the
    rest. *)
Definition follows (fl : flags) (phrase : list regex) (cls : ascii -> bool)
    (text tok : list ascii) : Prop :=
  exists pre body post g1,
    text = pre ++ body ++ tok ++ post /\
    reach fl (cat phrase)
      (last_char None pre, body ++ tok ++ post, ∅)
      (last_char (last_char None pre) body, tok ++ post, g1) /\
    tok ≠ [] /\ Forall (fun a => cls a = true) tok /\ stops_at cls post.

(** ** Comments *)

(** The two passes of [clean_sql], on the characters of the text. *)
Definition remove_block_comments (l : list ascii) : list ascii :=
  kept_of (scan block_flags block_comment 0 None l).
Definition remove_line_comments (l : list ascii) : list ascii :=
  kept_of (scan line_flags line_comment 0 None l).

Definition opener : list ascii := ["/"; "*"]%char.
Definition closer : list ascii := ["*"; "/"]%char.
Definition dashes : list ascii := ["-"; "-"]%char.

(** The text does not contain [*/]. *)
Definition unclosed (body : list ascii) : Prop :=
  forall u v, body ≠ u ++ closer ++ v.

(** The text after the first [*/]. *)
Fixpoint after_close (l : list ascii) : option (list ascii) :=
  match l with
  | a :: l' =>
      match l' with
      | b :: l'' =>
          if Ascii.eqb a "*" && Ascii.eqb b "/" then Some l'' else after_close l'
      | [] => None
      end
  | [] => None
  end.

(** The text from the end of the line on: from the first newline, or
    nothing when there is none. *)
Fixpoint to_line_end (l : list ascii) : list ascii :=
  match l with
  | c :: l' => if Ascii.eqb c newline then l else to_line_end l'
  | [] => []
  end.

(** A one-character text: the newline. *)
Definition NL : string := String newline "".

(** ** Object names *)

(** The names a list of [findall] tuples contributes to the set: the
    cleaned non-empty groups that pass the keyword filter. *)
Definition contributes (tuples : list (list string)) (x : string) : Prop :=
  exists m obj, m ∈ tuples /\ obj ∈ m /\ obj ≠ "" /\ x = cleaned_name obj /\
    exists seg, last_segment x = Ok seg /\ seg ∉ BLOCK_KEYWORDS.

(** Letters, digits, underscore and dot. *)
Definition is_ident_char (c : ascii) : bool :=
  Chr.is_lower c || Chr.is_upper c || Chr.is_digit c
  || Ascii.eqb c "_"%char || Ascii.eqb c "."%char.

(** The keyword phrase of each rule: what stands before the group. *)
Definition phrases : list (list regex) :=
  [ [Boundary; lit "from"; ws];
    [Boundary; lit "join"; ws];
    [Boundary; lit "update"; ws];
    [Boundary; lit "insert"; ws; lit "into"; ws; modifier];
    [Boundary; lit "merge"; ws; lit "into"; ws; modifier];
    [Boundary; lit "delete"; ws; lit "from"; ws];
    [Boundary; lit "truncate"; ws; lit "table"; ws; modifier];
    [Boundary; lit "alter"; ws; lit "table"; ws; modifier];
    [Boundary; lit "create"; ws; or_replace; modifier; lit "table"; ws];
    [Boundary; lit "create"; ws; or_replace; lit "view"; ws];
    [Boundary; lit "drop"; ws; lit "table"; ws; modifier] ].

(** An identifier that immediately follows one of the eleven keyword
    phrases. *)
Definition follows_phrase (text tok : list ascii) : Prop :=
  exists n ph, phrases !! n = Some ph /\ follows object_flags ph is_ident_char text tok.

(** The name such an identifier stands for, unless it is filtered out. *)
Definition names_object (text : list ascii) (x : string) : Prop :=
  exists tok, follows_phrase text tok /\ x = Str.upper (Str.of_chars tok) /\
    exists seg, last_segment x = Ok seg /\ seg ∉ BLOCK_KEYWORDS.

(** The successive matches of the object pattern in a text. *)
Definition object_matches (text : list ascii) : list (list ascii * caps) :=
  matches_of (scan object_flags object_pattern 0 None text).

(** The name a recorded match stands for, unless it is filtered out. *)
Definition captured (text : list ascii) (x : string) : Prop :=
  exists w g n tok, (w, g) ∈ object_matches text /\ g !! n = Some tok /\
    x = Str.upper (Str.of_chars tok) /\
    exists seg, last_segment x = Ok seg /\ seg ∉ BLOCK_KEYWORDS.


(** ** Redundancy *)

(** A name is kept exactly when it is in the input and either has a dot or
    is the final segment of no dotted name of the input. *)
Definition resolved (objects : gset string) (x : string) : Prop :=
  x ∈ objects /\
  (has_dot x \/ ~ exists y, y ∈ objects /\ has_dot y /\ last_segment y = Ok x).

(** ** Categories *)

(** The prefixes in their order of priority, each with its label. *)
Definition prefix_table : list (string * string) :=
  [("LP_", "LP_OBJECTS"); ("DDT_", "DDT_OBJECTS"); ("E_", "E_OBJECTS");
   ("SA_", "SA_OBJECTS"); ("DW_", "DW_OBJECTS")].

(** The label of the first prefix of the table that starts the segment,
    the catch-all when none does. *)
Definition category_of (table_name : string) : string :=
  match find (fun e => Str.startswith e.1 table_name) prefix_table with
  | Some e => e.2
  | None => OTHER
  end.

(** The names filed under a label. *)
Definition filed (categories : gmap string (list string)) (label x : string) : Prop :=
  exists l, categories !! label = Some l /\ x ∈ l.

(** ** Procedure names *)

(** The names the two searches yield: the second group of a match of the
    definition pattern, or the group of a match of the invocation
    pattern, in upper case. *)
Definition procedure_of (sql_text x : string) : Prop :=
  (exists a sp, [a; sp] ∈ findall proc_flags create_pattern 2 sql_text /\ x = Str.upper sp) \/
  (exists sp, sp ∈ findall1 proc_flags call_pattern sql_text /\ x = Str.upper sp).

(** Letters, digits, underscore, dot and dollar sign. *)
Definition is_proc_char (c : ascii) : bool :=
  Chr.is_word c || Ascii.eqb c "."%char || Ascii.eqb c "$"%char.

(** What stands before the name in a definition and in an invocation. *)
Definition create_phrase : list regex :=
  [lit "create"; ws; Opt (Group 1 (cat [lit "or"; ws; lit "replace"; ws]));
   lit "procedure"; ws].
Definition call_phrase : list regex :=
  [Boundary; alt (lit "exec") [lit "execute"; lit "call"]; ws].

(** A procedure name read off the text: an identifier that follows one of
    the two phrases, in upper case. *)
Definition names_procedure (text : list ascii) (x : string) : Prop :=
  exists tok, x = Str.upper (Str.of_chars tok) /\
    (follows proc_flags create_phrase is_proc_char text tok \/
     follows proc_flags call_phrase is_proc_char text tok).

(** ** Letter case *)

(** A text of the repertoire of the model: every character a code point
    below 128. *)
Definition ascii_text (s : string) : bool :=
  forallb (fun c => Chr.code c <? 128) (Str.chars s).

(** A text in lower case, a capture table in lower case, an answer of the
    matcher in lower case, a piece of a scan in lower case. *)
Definition lower_chars (l : list ascii) : list ascii := map Chr.lower l.
Definition lower_caps (g : caps) : caps := lower_chars <$> g.
Definition lower_answer (o : option (list ascii * caps)) : option (list ascii * caps) :=
  prod_map lower_chars lower_caps <$> o.
Definition lower_piece (p : piece) : piece :=
  match p with
  | Kept c => Kept (Chr.lower c)
  | Found w g => Found (lower_chars w) (lower_caps g)
  end.

(** [k'] does on the lower-cased text what [k] does on the text. *)
Definition lower_sim (k k' : cont) : Prop :=
  forall prev inp g,
    k' (Chr.lower <$> prev) (lower_chars inp) (lower_caps g) = lower_answer (k prev inp g).

(** [p in l] for a text [p]. *)
Fixpoint occurs (p l : list ascii) : bool :=
  Str.starts_chars p l ||
  match l with
  | [] => false
  | _ :: l' => occurs p l'
  end.

(** Upper-case letters, digits, underscore and dot; and the same with the
    dollar sign. *)
Definition is_name_char (c : ascii) : bool :=
  Chr.is_upper c || Chr.is_digit c || Ascii.eqb c "_"%char || Ascii.eqb c "."%char.
Definition is_proc_name_char (c : ascii) : bool :=
  is_name_char c || Ascii.eqb c "$"%char.

(** The six labels of [categorize]. *)
Definition labels : list string :=
  ["LP_OBJECTS"; "DDT_OBJECTS"; "E_OBJECTS"; "SA_OBJECTS"; "DW_OBJECTS"; OTHER].

(** The line assigns [value] to [key]: it has an [=], and once stripped it
    is a text without [=] that strips to [key], the [=], and a text that
    strips to [value]. *)
Definition assigns (line : list ascii) (key value : string) : Prop :=
  exists a b,
    Str.strip_chars line = a ++ "="%char :: b /\ ("="%char ∉ a) /\
    key = Str.of_chars (Str.strip_chars a) /\ value = Str.of_chars (Str.strip_chars b).

(** A configuration file for a list of settings: one line [key=value] per
    setting. *)
Definition setting_line (kv : string * string) : list ascii :=
  Str.chars kv.1 ++ "="%char :: Str.chars kv.2 ++ [newline].
Definition config_text (settings : list (string * string)) : string :=
  Str.of_chars (concat (map setting_line settings)).

(** A key and a value that a line can hold as they are: stripped, on one
    line, and no [=] in the key. *)
Definition plain_setting (kv : string * string) : bool :=
  bool_decide (Str.strip kv.1 = kv.1) && bool_decide (Str.strip kv.2 = kv.2)
  && negb (Str.contains "=" kv.1)
  && negb (Str.contains newline kv.1) && negb (Str.contains newline kv.2).

(** A text whose first and last characters are no white space. *)
Definition trimmed (l : list ascii) : Prop :=
  match l with [] => True | c :: _ => Chr.is_space c = false end /\
  match rev l with [] => True | c :: _ => Chr.is_space c = false end.

(** The setting of [key] that the lines leave: the last line that assigns
    it. *)
Definition last_assignment (lines : list (list ascii)) (key value : string) : Prop :=
  exists lines1 line lines2,
    lines = lines1 ++ line :: lines2 /\ assigns line key value /\
    forall line' value', line' ∈ lines2 -> ~ assigns line' key value'.

(** * Properties *)

(** ** Loops and indexing *)

Section loops.
Context {A S : Type}.
Implicit Types (body : S -> A -> result S) (l : list A) (acc : S).

Lemma for_each_cons body x l acc :
  for_each body (x :: l) acc = body acc x ≫= for_each body l.
Proof. done. Qed.

End loops.

Lemma bind_Ok {A B} (a : A) (f : A -> result B) : Ok a ≫= f = f a.
Proof. done. Qed.

Lemma split_chars_nonempty sep l : Str.split_chars sep l ≠ [].
Proof.
  destruct l as [|c l]; simpl; [done|].
  destruct (Ascii.eqb c sep); [done|].
  by destruct (Str.split_chars sep l).
Qed.

(** [name.split(".")[-1]] never raises: [split] returns at least one
    segment. *)
Lemma last_segment_ok name : exists seg, last_segment name = Ok seg.
Proof.
  unfold last_segment, item_last, Str.split.
  destruct (last (map Str.of_chars (Str.split_chars "." (Str.chars name)))) as [seg|] eqn:E.
  - eauto.
  - apply last_None in E. apply fmap_nil_inv in E.
    by apply split_chars_nonempty in E.
Qed.

(** ** [extract_objects]: what the two loops compute *)

Lemma add_object_spec objects obj :
  exists objects', add_object objects obj = Ok objects' /\
    forall x, x ∈ objects' <->
      x ∈ objects \/
      (obj ≠ "" /\ x = cleaned_name obj /\
       exists seg, last_segment x = Ok seg /\ seg ∉ BLOCK_KEYWORDS).
Proof.
  unfold add_object. destruct (decide (obj = "")) as [->|Hne].
  { exists objects. split; [done|]. intros x. split; [by left|].
    by intros [?|(? & _)]. }
  destruct (last_segment_ok (cleaned_name obj)) as [seg Hseg].
  rewrite Hseg. simpl. destruct (decide (seg ∈ BLOCK_KEYWORDS)) as [Hin|Hout].
  - exists objects. split; [done|]. intros x. split; [by left|].
    intros [?|(_ & -> & seg' & Hseg' & Hout)]; [done|].
    rewrite Hseg in Hseg'. injection Hseg' as <-. contradiction.
  - eexists. split; [done|]. intros x. rewrite elem_of_union, elem_of_singleton.
    split.
    + intros [->|?]; [right|by left]. eauto 10.
    + intros [?|(_ & -> & _)]; [by right|by left].
Qed.

Lemma tuple_loop_spec m objects :
  exists objects', for_each add_object m objects = Ok objects' /\
    forall x, x ∈ objects' <->
      x ∈ objects \/
      exists obj, obj ∈ m /\ obj ≠ "" /\ x = cleaned_name obj /\
        exists seg, last_segment x = Ok seg /\ seg ∉ BLOCK_KEYWORDS.
Proof.
  revert objects. induction m as [|obj m IH]; intros objects; simpl.
  { exists objects. split; [done|]. intros x. split; [by left|].
    intros [?|(obj & Hin & _)]; [done|]. by apply elem_of_nil in Hin. }
  destruct (add_object_spec objects obj) as (o1 & -> & H1). simpl.
  destruct (IH o1) as (o2 & -> & H2). exists o2. split; [done|].
  intros x. rewrite H2, H1. split.
  - intros [[?|(? & ? & ?)]|(obj' & ? & ?)]; [by left|right..].
    + exists obj. split; [left|]; done.
    + exists obj'. split; [by right|done].
  - intros [?|(obj' & Hin & ?)]; [by left; left|].
    apply elem_of_cons in Hin as [->|Hin]; [left; right; tauto|].
    right. by exists obj'.
Qed.

Lemma match_loop_spec tuples objects :
  exists objects',
    for_each (fun objects m => for_each add_object m objects) tuples objects = Ok objects' /\
    forall x, x ∈ objects' <-> x ∈ objects \/ contributes tuples x.
Proof.
  revert objects. induction tuples as [|m tuples IH]; intros objects; simpl.
  { exists objects. split; [done|]. intros x. split; [by left|].
    intros [?|(m & obj & Hin & _)]; [done|]. by apply elem_of_nil in Hin. }
  destruct (tuple_loop_spec m objects) as (o1 & -> & H1). simpl.
  destruct (IH o1) as (o2 & -> & H2). exists o2. split; [done|].
  intros x. rewrite H2, H1. unfold contributes. split.
  - intros [[?|(obj & ? & ?)]|(m' & obj & ? & ?)]; [by left|right..].
    + exists m, obj. split; [left|]; done.
    + exists m', obj. split; [by right|done].
  - intros [?|(m' & obj & Hin & ?)]; [by left; left|].
    apply elem_of_cons in Hin as [->|Hin]; [left; right; by exists obj|].
    right. by exists m', obj.
Qed.

(** [extract_objects] returns, and a name is in the set it returns exactly
    when a non-empty group of one of the matches cleans to that name and
    the final segment of the name is no block keyword. *)
Lemma extract_objects_spec sql_text :
  exists objects, extract_objects sql_text = Ok objects /\
    forall x, x ∈ objects <->
      contributes (findall object_flags object_pattern 11 sql_text) x.
Proof.
  unfold extract_objects.
  destruct (match_loop_spec (findall object_flags object_pattern 11 sql_text) ∅)
    as (objects & -> & H).
  exists objects. split; [done|]. intros x. rewrite H. split; [|by right].
  intros [Hx|?]; [|done]. by apply not_elem_of_empty in Hx.
Qed.

(** ** [remove_redundancy]: what the loop computes *)

Lemma shadowed_spec visit obj :
  exists b, shadowed visit obj = Ok b /\
    (b = true <-> exists y, y ∈ visit /\ last_segment y = Ok obj).
Proof.
  unfold shadowed. induction visit as [|y visit IH]; simpl.
  { exists false. split; [done|]. split; [done|].
    intros (y & Hy & _). by apply elem_of_nil in Hy. }
  destruct (last_segment_ok y) as [seg Hseg]. rewrite Hseg. simpl.
  destruct (bool_decide_reflect (seg = obj)) as [->|Hne].
  - exists true. split; [done|]. split; [|done]. intros _. exists y. split; [left|done].
  - destruct IH as (b & -> & Hb). exists b. split; [done|]. rewrite Hb. split.
    + intros (z & Hz & ?). exists z. split; [by right|done].
    + intros (z & Hz & Hlast). apply elem_of_cons in Hz as [->|Hz]; [|by exists z].
      rewrite Hseg in Hlast. by simplify_eq.
Qed.

Lemma resolve_loop_spec schema_visit noschema_visit cleaned_objects :
  exists r, resolve_loop schema_visit noschema_visit cleaned_objects = Ok r /\
    forall x, x ∈ r <->
      x ∈ cleaned_objects \/
      (x ∈ noschema_visit /\ ~ exists y, y ∈ schema_visit /\ last_segment y = Ok x).
Proof.
  unfold resolve_loop. revert cleaned_objects.
  induction noschema_visit as [|obj l IH]; intros acc.
  { exists acc. split; [done|]. intros x. split; [by left|].
    intros [?|[Hx _]]; [done|]. by apply elem_of_nil in Hx. }
  destruct (shadowed_spec schema_visit obj) as (b & Hs & Hb).
  rewrite for_each_cons, Hs, bind_Ok.
  destruct b; rewrite bind_Ok.
  - destruct (IH acc) as (r & -> & Hr). exists r. split; [done|].
    intros x. rewrite Hr. split.
    + intros [?|[? ?]]; [by left|right]. split; [by right|done].
    + intros [?|[Hx Hno]]; [by left|].
      apply elem_of_cons in Hx as [->|Hx]; [|by right].
      destruct Hno. by apply Hb.
  - destruct (IH ({[obj]} ∪ acc)) as (r & -> & Hr). exists r. split; [done|].
    intros x. rewrite Hr, elem_of_union, elem_of_singleton. split.
    + intros [[->|?]|[? ?]]; [right|by left|right].
      * split; [left|]. intros Hex. by apply Hb in Hex.
      * split; [by right|done].
    + intros [?|[Hx Hno]]; [by left; right|].
      apply elem_of_cons in Hx as [->|Hx]; [by left; left|by right].
Qed.

(** Whatever the order of the visits, the loop computes [resolved]. *)
Lemma resolve_loop_resolved objects schema_visit noschema_visit :
  schema_visit ≡ₚ elements (filter has_dot objects) ->
  noschema_visit ≡ₚ elements (filter (fun obj => ~ has_dot obj) objects) ->
  exists r, resolve_loop schema_visit noschema_visit (filter has_dot objects) = Ok r /\
    forall x, x ∈ r <-> resolved objects x.
Proof.
  intros Hs Hn.
  destruct (resolve_loop_spec schema_visit noschema_visit (filter has_dot objects))
    as (r & Hr & Hx).
  assert (Hsv : forall y, y ∈ schema_visit <-> has_dot y /\ y ∈ objects).
  { intros y. by rewrite Hs, elem_of_elements, elem_of_filter. }
  assert (Hnv : forall y, y ∈ noschema_visit <-> ~ has_dot y /\ y ∈ objects).
  { intros y. by rewrite Hn, elem_of_elements, elem_of_filter. }
  exists r. split; [done|]. intros x.
  rewrite Hx, elem_of_filter, Hnv. unfold resolved. split.
  - intros [[Hd Hin]|[[Hnd Hin] Hno]]; (split; [done|]); [by left|right].
    intros (y & Hy & Hdy & Hlast). apply Hno. exists y. by rewrite Hsv.
  - intros [Hin [Hd|Hno]]; [by left|].
    destruct (decide (has_dot x)) as [Hd|Hnd]; [by left|right].
    split; [done|]. intros (y & Hy & Hlast). apply Hno. exists y.
    apply Hsv in Hy. tauto.
Qed.

Lemma remove_redundancy_spec objects :
  exists r, remove_redundancy objects = Ok r /\ forall x, x ∈ r <-> resolved objects x.
Proof. by apply resolve_loop_resolved. Qed.

(** ** [categorize]: what the loop computes *)

Lemma filed_append_to label full_obj categories label' x :
  filed (append_to label full_obj categories) label' x <->
  filed categories label' x \/ (label' = label /\ x = full_obj).
Proof.
  unfold filed, append_to. destruct (decide (label = label')) as [<-|Hne].
  - rewrite lookup_insert_eq. split.
    + intros (l & [= <-] & Hx). apply elem_of_app in Hx as [Hx|Hx].
      * left. destruct (categories !! label) as [l0|]; simpl in Hx.
        -- by exists l0.
        -- by apply elem_of_nil in Hx.
      * right. apply list_elem_of_singleton in Hx. done.
    + intros [(l & Hl & Hx)|[_ ->]]; eexists; (split; [done|]); rewrite elem_of_app.
      * left. by rewrite Hl.
      * right. by apply list_elem_of_singleton.
  - rewrite lookup_insert_ne by done. split; [by left|].
    intros [?|[-> _]]; done.
Qed.

(** The chain of tests is the look-up in the priority table. *)
Lemma categorize_step_spec categories full_obj :
  exists seg categories',
    last_segment full_obj = Ok seg /\
    categorize_step categories full_obj = Ok categories' /\
    categories' = append_to (category_of seg) full_obj categories.
Proof.
  destruct (last_segment_ok full_obj) as [seg Hseg].
  exists seg. unfold categorize_step. rewrite Hseg, bind_Ok.
  unfold category_of, prefix_table, find, fst, snd.
  repeat (case (Str.startswith _ seg); [by eexists|]).
  by eexists.
Qed.

Lemma categorize_loop_spec visit categories :
  exists categories', for_each categorize_step visit categories = Ok categories' /\
    forall label x, filed categories' label x <->
      filed categories label x \/
      (x ∈ visit /\ exists seg, last_segment x = Ok seg /\ label = category_of seg).
Proof.
  revert categories. induction visit as [|full_obj visit IH]; intros categories.
  { exists categories. split; [done|]. intros label x. split; [by left|].
    intros [?|[Hx _]]; [done|]. by apply elem_of_nil in Hx. }
  destruct (categorize_step_spec categories full_obj) as (seg & c1 & Hseg & Hstep & ->).
  rewrite for_each_cons, Hstep, bind_Ok.
  destruct (IH (append_to (category_of seg) full_obj categories)) as (c2 & -> & H2).
  exists c2. split; [done|]. intros label x.
  rewrite H2, filed_append_to. split.
  - intros [[?|[-> ->]]|[? ?]]; [by left|right..].
    + split; [left|]. by exists seg.
    + split; [by right|done].
  - intros [?|[Hx (seg' & Hseg' & ->)]]; [by left; left|].
    apply elem_of_cons in Hx as [->|Hx].
    + left; right. rewrite Hseg in Hseg'. by simplify_eq.
    + right. split; [done|]. by exists seg'.
Qed.

(** No name is filed twice under a label when the visit has no repeat. *)
Lemma categorize_loop_NoDup visit categories :
  NoDup visit ->
  (forall label l, categories !! label = Some l -> NoDup l) ->
  (forall label x, filed categories label x -> x ∉ visit) ->
  exists categories', for_each categorize_step visit categories = Ok categories' /\
    forall label l, categories' !! label = Some l -> NoDup l.
Proof.
  revert categories. induction visit as [|full_obj visit IH]; intros categories Hnd Hc Hfresh.
  { by exists categories. }
  apply NoDup_cons in Hnd as [Hnotin Hnd].
  destruct (categorize_step_spec categories full_obj) as (seg & c1 & Hseg & Hstep & ->).
  rewrite for_each_cons, Hstep, bind_Ok. apply IH; [done|..].
  - intros label l. unfold append_to.
    destruct (decide (category_of seg = label)) as [<-|Hne].
    + rewrite lookup_insert_eq. intros [= <-]. apply NoDup_app. split_and!.
      * destruct (categories !! category_of seg) as [l0|] eqn:E; simpl; [by eapply Hc|].
        apply NoDup_nil_2.
      * intros x Hx Hx'. apply list_elem_of_singleton in Hx' as ->.
        eapply Hfresh; [|left].
        destruct (categories !! category_of seg) as [l0|] eqn:E; simpl in Hx.
        -- by exists l0.
        -- by apply elem_of_nil in Hx.
      * apply NoDup_singleton.
    + rewrite lookup_insert_ne by done. apply Hc.
  - intros label x Hx Hin. apply filed_append_to in Hx as [Hx|[_ ->]]; [|done].
    eapply Hfresh; [done|by right].
Qed.

(** ** [extract_stored_procedures]: what the loops and [sorted] compute *)

(** Every tuple of [findall] has one component per group. *)
Lemma findall_tuple_length fl r ngroups s t :
  t ∈ findall fl r ngroups s -> length t = ngroups.
Proof.
  unfold findall. intros Ht. apply list_elem_of_fmap in Ht as (m & -> & _).
  by rewrite length_map, length_seq.
Qed.

Lemma create_loop_spec (tuples : list (list string)) (procedures : gset string) :
  (forall t, t ∈ tuples -> length t = 2) ->
  exists r,
    for_each
      (fun (procedures : gset string) t =>
         match t with
         | [_; sp] => Ok ({[Str.upper sp]} ∪ procedures)
         | _ => Raise ValueError
         end) tuples procedures = Ok r /\
    forall x, x ∈ r <->
      x ∈ procedures \/ exists a sp, [a; sp] ∈ tuples /\ x = Str.upper sp.
Proof.
  revert procedures. induction tuples as [|t tuples IH]; intros procedures Hlen.
  { exists procedures. split; [done|]. intros x. split; [by left|].
    intros [?|(a & sp & Hin & _)]; [done|]. by apply elem_of_nil in Hin. }
  assert (Ht : length t = 2) by (apply Hlen; left).
  destruct t as [|a [|sp [|? ?]]]; try discriminate Ht.
  rewrite for_each_cons, bind_Ok.
  destruct (IH ({[Str.upper sp]} ∪ procedures)) as (r & -> & Hr).
  { intros t' Ht'. apply Hlen. by right. }
  exists r. split; [done|]. intros x.
  rewrite Hr, elem_of_union, elem_of_singleton. split.
  - intros [[->|?]|(a' & sp' & ? & ?)]; [right|by left|right].
    + exists a, sp. split; [left|done].
    + exists a', sp'. split; [by right|done].
  - intros [?|(a' & sp' & Hin & ->)]; [by left; right|].
    apply elem_of_cons in Hin as [[= -> ->]|Hin]; [by left; left|].
    right. by exists a', sp'.
Qed.

Lemma call_loop_spec (names : list string) (procedures : gset string) :
  exists r,
    for_each (fun (procedures : gset string) sp => Ok ({[Str.upper sp]} ∪ procedures))
      names procedures = Ok r /\
    forall x, x ∈ r <-> x ∈ procedures \/ exists sp, sp ∈ names /\ x = Str.upper sp.
Proof.
  revert procedures. induction names as [|sp names IH]; intros procedures.
  { exists procedures. split; [done|]. intros x. split; [by left|].
    intros [?|(sp & Hin & _)]; [done|]. by apply elem_of_nil in Hin. }
  rewrite for_each_cons, bind_Ok.
  destruct (IH ({[Str.upper sp]} ∪ procedures)) as (r & -> & Hr).
  exists r. split; [done|]. intros x.
  rewrite Hr, elem_of_union, elem_of_singleton. split.
  - intros [[->|?]|(sp' & ? & ?)]; [right|by left|right].
    + exists sp. split; [left|done].
    + exists sp'. split; [by right|done].
  - intros [?|(sp' & Hin & ->)]; [by left; right|].
    apply elem_of_cons in Hin as [->|Hin]; [by left; left|].
    right. by exists sp'.
Qed.

(** [sorted] orders its argument and keeps its elements. *)
Lemma sorted_StronglySorted l : StronglySorted String.le (sorted l).
Proof. apply StronglySorted_merge_sort; apply _. Qed.

Lemma sorted_Permutation l : sorted l ≡ₚ l.
Proof. apply merge_sort_Permutation. Qed.

Lemma extract_stored_procedures_spec sql_text :
  exists l, extract_stored_procedures sql_text = Ok l /\
    StronglySorted String.le l /\ NoDup l /\
    forall x, x ∈ l <-> procedure_of sql_text x.
Proof.
  unfold extract_stored_procedures.
  destruct (create_loop_spec (findall proc_flags create_pattern 2 sql_text) ∅)
    as (p1 & -> & H1).
  { intros t. apply findall_tuple_length. }
  rewrite bind_Ok.
  destruct (call_loop_spec (findall1 proc_flags call_pattern sql_text) p1)
    as (p2 & -> & H2).
  rewrite bind_Ok. eexists. split; [done|]. split_and!.
  - apply sorted_StronglySorted.
  - rewrite sorted_Permutation. apply NoDup_elements.
  - intros x. rewrite sorted_Permutation, elem_of_elements, H2, H1.
    unfold procedure_of. split.
    + intros [[Hx|?]|?]; [|by left|by right]. by apply not_elem_of_empty in Hx.
    + intros [?|?]; [by left; right|by right].
Qed.

(** ** The matcher against a declarative reading of the patterns *)

Lemma last_char_cons prev c w : last_char prev (c :: w) = last_char (Some c) w.
Proof.
  unfold last_char. destruct w as [|d w]; [done|].
  change (last (c :: d :: w)) with (last (d :: w)).
  by destruct (last (d :: w)) eqn:E; [|apply last_None in E].
Qed.

Lemma last_char_app prev w1 w2 :
  last_char prev (w1 ++ w2) = last_char (last_char prev w1) w2.
Proof.
  revert prev. induction w1 as [|c w1 IH]; intros prev; [done|].
  simpl. by rewrite !last_char_cons, IH.
Qed.

Lemma many_greedy_sound p k prev inp g res :
  many_greedy p k prev inp g = Some res ->
  exists w inp', inp = w ++ inp' /\ Forall (fun a => p a = true) w /\
    k (last_char prev w) inp' g = Some res.
Proof.
  revert prev. induction inp as [|c inp IH]; intros prev; simpl.
  { intros Hk. by exists [], []. }
  destruct (p c) eqn:Hc; [|intros Hk; by exists [], (c :: inp)].
  destruct (many_greedy p k (Some c) inp g) as [r|] eqn:E.
  - intros [= ->]. destruct (IH _ E) as (w & inp' & -> & Hw & Hk).
    exists (c :: w), inp'. rewrite last_char_cons. by repeat constructor.
  - intros Hk. by exists [], (c :: inp).
Qed.

Lemma many_lazy_sound p k prev inp g res :
  many_lazy p k prev inp g = Some res ->
  exists w inp', inp = w ++ inp' /\ Forall (fun a => p a = true) w /\
    k (last_char prev w) inp' g = Some res.
Proof.
  revert prev. induction inp as [|c inp IH]; intros prev; simpl.
  { destruct (k prev [] g) eqn:E; [|done]. intros [= ->]. by exists [], []. }
  destruct (k prev (c :: inp) g) eqn:E.
  { intros [= ->]. by exists [], (c :: inp). }
  destruct (p c) eqn:Hc; [|done]. intros Hl.
  destruct (IH _ Hl) as (w & inp' & -> & Hw & Hk).
  exists (c :: w), inp'. rewrite last_char_cons. by repeat constructor.
Qed.

(** Soundness: an answer of the matcher comes from a cursor the pattern
    reaches, at which the continuation gives that answer. *)
Lemma run_sound fl r k prev inp g res :
  run fl r k prev inp g = Some res ->
  exists prev' inp' g',
    reach fl r (prev, inp, g) (prev', inp', g') /\ k prev' inp' g' = Some res.
Proof.
  revert k prev inp g.
  induction r as [|set| |r1 IH1 r2 IH2|r1 IH1 r2 IH2|r1 IH1|set|set|set|n r1 IH1];
    intros k prev inp g; simpl.
  - intros Hk. exists prev, inp, g. split; [constructor|done].
  - destruct inp as [|c inp]; [done|].
    destruct (set_matches fl set c) eqn:Hc; [|done].
    intros Hk. exists (Some c), inp, g. split; [by constructor|done].
  - destruct (at_boundary prev inp) eqn:Hb; [|done].
    intros Hk. exists prev, inp, g. split; [by constructor|done].
  - intros H. apply IH1 in H as (p1 & i1 & g1 & Hr1 & H).
    apply IH2 in H as (p2 & i2 & g2 & Hr2 & H).
    exists p2, i2, g2. split; [by econstructor|done].
  - destruct (run fl r1 k prev inp g) eqn:E.
    + intros [= ->]. apply IH1 in E as (p1 & i1 & g1 & Hr1 & H).
      exists p1, i1, g1. split; [by apply reach_alt_l|done].
    + intros H. apply IH2 in H as (p2 & i2 & g2 & Hr2 & H).
      exists p2, i2, g2. split; [by apply reach_alt_r|done].
  - destruct (run fl r1 k prev inp g) eqn:E.
    + intros [= ->]. apply IH1 in E as (p1 & i1 & g1 & Hr1 & H).
      exists p1, i1, g1. split; [by apply reach_opt_in|done].
    + intros Hk. exists prev, inp, g. split; [apply reach_opt_out|done].
  - destruct inp as [|c inp]; [done|].
    destruct (set_matches fl set c) eqn:Hc; [|done].
    intros H. apply many_greedy_sound in H as (w & inp' & -> & Hw & Hk).
    exists (last_char (Some c) w), inp', g. split; [|done].
    rewrite <- last_char_cons with (prev := prev).
    apply (reach_plus fl set prev (c :: w)); [done|by constructor].
  - intros H. apply many_greedy_sound in H as (w & inp' & -> & Hw & Hk).
    exists (last_char prev w), inp', g. split; [by constructor|done].
  - intros H. apply many_lazy_sound in H as (w & inp' & -> & Hw & Hk).
    exists (last_char prev w), inp', g. split; [by constructor|done].
  - intros H. apply IH1 in H as (p1 & i1 & g1 & Hr1 & H).
    exists p1, i1, (<[n := consumed inp i1]> g1). split; [by constructor|done].
Qed.

(** What a pattern reads is a prefix of the text, and the character before
    the cursor is kept up to date. *)
Lemma reach_text fl r prev inp g prev' inp' g' :
  reach fl r (prev, inp, g) (prev', inp', g') ->
  exists w, inp = w ++ inp' /\ prev' = last_char prev w.
Proof.
  intros H.
  remember (prev, inp, g) as c eqn:Ec. remember (prev', inp', g') as c' eqn:Ec'.
  revert prev inp g prev' inp' g' Ec Ec'.
  induction H as [c|set p a i g0 Ha|p i g0 Hb|r1 r2 c1 [[p2 i2] g2] c3 H1 IH1 H2 IH2
                 |r1 r2 c1 c2 H1 IH1|r1 r2 c1 c2 H1 IH1|r1 c1 c2 H1 IH1|r1 c
                 |set p w i g0 Hne Hw|set p w i g0 Hw|set p w i g0 Hw
                 |n r1 p i g0 p' i' g0' H1 IH1];
    intros prev inp g prev' inp' g' Ec Ec'; simplify_eq.
  - by exists [].
  - by exists [a].
  - by exists [].
  - destruct (IH1 _ _ _ _ _ _ eq_refl eq_refl) as (w1 & -> & ->).
    destruct (IH2 _ _ _ _ _ _ eq_refl eq_refl) as (w2 & -> & ->).
    exists (w1 ++ w2). by rewrite last_char_app, app_assoc.
  - by eapply IH1.
  - by eapply IH1.
  - by eapply IH1.
  - by exists [].
  - by exists w.
  - by exists w.
  - by exists w.
  - by eapply IH1.
Qed.

Lemma consumed_app w rest : consumed (w ++ rest) rest = w.
Proof.
  unfold consumed. rewrite length_app.
  replace (length w + length rest - length rest) with (length w) by lia.
  by rewrite take_app_length.
Qed.

(** Patterns without a group leave the captures as they are. *)
Lemma reach_groupless fl r prev inp g prev' inp' g' :
  groupless r = true ->
  reach fl r (prev, inp, g) (prev', inp', g') -> g' = g.
Proof.
  intros Hg H.
  remember (prev, inp, g) as c eqn:Ec. remember (prev', inp', g') as c' eqn:Ec'.
  revert prev inp g prev' inp' g' Ec Ec'.
  induction H as [c|set p a i g0 Ha|p i g0 Hb|r1 r2 c1 [[p2 i2] g2] c3 H1 IH1 H2 IH2
                 |r1 r2 c1 c2 H1 IH1|r1 r2 c1 c2 H1 IH1|r1 c1 c2 H1 IH1|r1 c
                 |set p w i g0 Hne Hw|set p w i g0 Hw|set p w i g0 Hw
                 |n r1 p i g0 p' i' g0' H1 IH1];
    intros prev inp g prev' inp' g' Ec Ec'; simplify_eq; simpl in Hg;
    try apply andb_prop in Hg as [Hg1 Hg2]; try done.
  - transitivity g2; [by eapply IH2|by eapply IH1].
  - by eapply IH1.
  - by eapply IH1.
  - by eapply IH1.
Qed.

(** The matcher only looks at what its continuation answers. *)
Lemma many_greedy_ext p (k1 k2 : cont) :
  (forall a b c, k1 a b c = k2 a b c) ->
  forall prev inp g, many_greedy p k1 prev inp g = many_greedy p k2 prev inp g.
Proof.
  intros Hk prev inp g. revert prev.
  induction inp as [|c inp IH]; intros prev; simpl; [apply Hk|].
  by rewrite IH, Hk.
Qed.

Lemma many_lazy_ext p (k1 k2 : cont) :
  (forall a b c, k1 a b c = k2 a b c) ->
  forall prev inp g, many_lazy p k1 prev inp g = many_lazy p k2 prev inp g.
Proof.
  intros Hk prev inp g. revert prev.
  induction inp as [|c inp IH]; intros prev; simpl; rewrite Hk; [done|].
  by rewrite IH.
Qed.

Lemma run_ext fl r (k1 k2 : cont) :
  (forall a b c, k1 a b c = k2 a b c) ->
  forall prev inp g, run fl r k1 prev inp g = run fl r k2 prev inp g.
Proof.
  revert k1 k2.
  induction r as [|set| |r1 IH1 r2 IH2|r1 IH1 r2 IH2|r1 IH1|set|set|set|n r1 IH1];
    intros k1 k2 Hk prev inp g; simpl.
  - apply Hk.
  - destruct inp as [|c inp]; [done|]. by rewrite Hk.
  - by rewrite Hk.
  - apply IH1. intros a b c. by apply IH2.
  - by rewrite (IH1 k1 k2 Hk), (IH2 k1 k2 Hk).
  - by rewrite (IH1 k1 k2 Hk), Hk.
  - destruct inp as [|c inp]; [done|]. by rewrite (many_greedy_ext _ k1 k2 Hk).
  - by apply many_greedy_ext.
  - by apply many_lazy_ext.
  - apply IH1. intros a b c. apply Hk.
Qed.

Lemma run_cat_app fl rs1 rs2 k prev inp g :
  run fl (cat (rs1 ++ rs2)) k prev inp g
  = run fl (cat rs1) (run fl (cat rs2) k) prev inp g.
Proof.
  revert prev inp g. induction rs1 as [|r rs1 IH]; intros prev inp g; [done|].
  simpl. apply run_ext. intros a b c. apply IH.
Qed.

(** Longest run first: when the continuation accepts everywhere, a greedy
    repetition stops only where the next character is not in the class. *)
Lemma many_greedy_longest p (k : cont) prev inp g :
  (forall a b c, k a b c ≠ None) ->
  exists w rest, inp = w ++ rest /\ Forall (fun a => p a = true) w /\ stops_at p rest /\
    many_greedy p k prev inp g = k (last_char prev w) rest g.
Proof.
  intros Hk. revert prev. induction inp as [|c inp IH]; intros prev; simpl.
  { by exists [], []. }
  destruct (p c) eqn:Hc; [|by exists [], (c :: inp)].
  destruct (IH (Some c)) as (w & rest & -> & Hw & Hstop & ->).
  exists (c :: w), rest. rewrite last_char_cons. split_and!; [done|by constructor|done|].
  destruct (k (last_char (Some c) w) rest g) eqn:E; [done|]. by apply Hk in E.
Qed.

(** The last item of the object rules: a group around a greedy class,
    followed by nothing. *)
Lemma run_final_group fl n set prev inp g rest g' :
  run fl (cat [Group n (Plus set)]) accept prev inp g = Some (rest, g') ->
  exists tok, tok ≠ [] /\ inp = tok ++ rest /\
    Forall (fun a => set_matches fl set a = true) tok /\
    stops_at (set_matches fl set) rest /\
    g' = <[n := tok]> g.
Proof.
  simpl. destruct inp as [|c inp]; [done|].
  destruct (set_matches fl set c) eqn:Hc; [|done].
  set (k := fun (prev' : option ascii) inp' (g' : caps) =>
              accept prev' inp' (<[n := consumed (c :: inp) inp']> g')).
  destruct (many_greedy_longest (set_matches fl set) k (Some c) inp g)
    as (w & rest' & -> & Hw & Hstop & ->); [done|].
  unfold k, accept. intros [= <- <-].
  exists (c :: w). split_and!; [done|done|by constructor|done|].
  change (c :: w ++ rest') with ((c :: w) ++ rest').
  by rewrite consumed_app.
Qed.

(** An alternation at the top of a pattern is decided by its first
    alternative that matches. *)
Lemma match_at_alt fl r rs prev inp res :
  match_at fl (alt r rs) prev inp = Some res ->
  exists r', r' ∈ r :: rs /\ match_at fl r' prev inp = Some res.
Proof.
  revert r. induction rs as [|r2 rs IH]; intros r; simpl.
  { intros H. exists r. split; [left|done]. }
  unfold match_at. simpl. fold (match_at fl r prev inp).
  destruct (match_at fl r prev inp) eqn:E.
  - intros [= ->]. exists r. split; [left|done].
  - intros H. apply IH in H as (r' & Hin & H). exists r'. split; [by right|done].
Qed.

(** ** The scan *)

Lemma matches_of_Found w g ps : matches_of (Found w g :: ps) = (w, g) :: matches_of ps.
Proof. done. Qed.
Lemma matches_of_Kept c ps : matches_of (Kept c :: ps) = matches_of ps.
Proof. done. Qed.
Lemma kept_of_Found w g ps : kept_of (Found w g :: ps) = kept_of ps.
Proof. done. Qed.
Lemma kept_of_Kept c ps : kept_of (Kept c :: ps) = c :: kept_of ps.
Proof. done. Qed.

(** The characters of a match in progress are passed over. *)
Lemma scan_skip fl r w prev rest :
  scan fl r (length w) prev (w ++ rest) = scan fl r 0 (last_char prev w) rest.
Proof.
  revert prev. induction w as [|c w IH]; intros prev; simpl.
  - by destruct rest.
  - by rewrite IH, last_char_cons.
Qed.

(** Where the pattern matches a non-empty text, the match is recorded and
    the scan resumes after it. *)
Lemma scan_found fl r prev w rest g :
  w ≠ [] ->
  match_at fl r prev (w ++ rest) = Some (rest, g) ->
  scan fl r 0 prev (w ++ rest) = Found w g :: scan fl r 0 (last_char prev w) rest.
Proof.
  intros Hne Hm. destruct w as [|c w]; [done|].
  change ((c :: w) ++ rest) with (c :: (w ++ rest)) in *.
  cbn [scan]. rewrite Hm.
  change (c :: w ++ rest) with ((c :: w) ++ rest).
  rewrite consumed_app, length_app.
  replace (length (c :: w) + length rest - length rest - 1) with (length w)
    by (simpl; lia).
  by rewrite scan_skip, last_char_cons.
Qed.

(** Where it does not match, the character is kept. *)
Lemma scan_kept fl r prev c inp :
  match_at fl r prev (c :: inp) = None ->
  scan fl r 0 prev (c :: inp) = Kept c :: scan fl r 0 (Some c) inp.
Proof. intros Hm. cbn [scan]. by rewrite Hm. Qed.

(** Every recorded match is the match of the pattern at some position of
    the text. *)
Lemma scan_matches fl r inp skip prev w g :
  (w, g) ∈ matches_of (scan fl r skip prev inp) ->
  exists pre inp' rest,
    inp = pre ++ inp' /\
    match_at fl r (last_char prev pre) inp' = Some (rest, g) /\
    w = consumed inp' rest.
Proof.
  revert skip prev. induction inp as [|c inp IH]; intros skip prev; cbn [scan].
  { intros H. by apply elem_of_nil in H. }
  assert (Hshift : forall sk,
    (w, g) ∈ matches_of (scan fl r sk (Some c) inp) ->
    exists pre inp' rest, c :: inp = pre ++ inp' /\
      match_at fl r (last_char prev pre) inp' = Some (rest, g) /\
      w = consumed inp' rest).
  { intros sk H. apply IH in H as (pre & inp' & rest & -> & Hm & ->).
    exists (c :: pre), inp', rest. by rewrite last_char_cons. }
  destruct skip as [|n]; [|apply Hshift].
  destruct (match_at fl r prev (c :: inp)) as [[rest g0]|] eqn:E.
  - rewrite matches_of_Found. intros H.
    apply elem_of_cons in H as [[= -> ->]|H]; [|by eapply Hshift].
    by exists [], (c :: inp), rest.
  - rewrite matches_of_Kept. apply Hshift.
Qed.

(** ** Patterns that end in a captured identifier *)

(** A pattern made of a phrase and a final group around a greedy class:
    where it matches, it has read the phrase and then a whole identifier,
    which the group holds. *)
Lemma final_group_match fl phrase n set prev inp rest g :
  match_at fl (cat (phrase ++ [Group n (Plus set)])) prev inp = Some (rest, g) ->
  exists body tok g1,
    inp = body ++ tok ++ rest /\
    reach fl (cat phrase) (prev, inp, ∅) (last_char prev body, tok ++ rest, g1) /\
    tok ≠ [] /\ Forall (fun a => set_matches fl set a = true) tok /\
    stops_at (set_matches fl set) rest /\ g = <[n := tok]> g1.
Proof.
  unfold match_at. rewrite run_cat_app. intros H.
  apply run_sound in H as (p1 & i1 & g1 & Hreach & Hfinal).
  destruct (reach_text _ _ _ _ _ _ _ _ Hreach) as (body & -> & ->).
  apply run_final_group in Hfinal as (tok & Hne & -> & Htok & Hstop & ->).
  by exists body, tok, g1.
Qed.

Lemma scan_final_group fl phrase n set text w g :
  (w, g) ∈ matches_of (scan fl (cat (phrase ++ [Group n (Plus set)])) 0 None text) ->
  exists tok g1, follows fl phrase (set_matches fl set) text tok /\ g = <[n := tok]> g1.
Proof.
  intros H. apply scan_matches in H as (pre & inp & rest & -> & Hm & _).
  apply final_group_match in Hm as (body & tok & g1 & -> & Hreach & Hne & Htok & Hstop & ->).
  exists tok, g1. split; [|done]. by exists pre, body, rest, g1.
Qed.

Lemma follows_class fl phrase (cls cls' : ascii -> bool) text tok :
  (forall c, cls c = cls' c) ->
  follows fl phrase cls text tok -> follows fl phrase cls' text tok.
Proof.
  intros Hc (pre & body & post & g1 & -> & Hreach & Hne & Htok & Hstop).
  exists pre, body, post, g1. split_and!; try done.
  - eapply Forall_impl; [done|]. intros a Ha. by rewrite <- Hc.
  - destruct post as [|c post]; [done|]. simpl in *. by rewrite <- Hc.
Qed.

Lemma chars_of_chars l : Str.chars (Str.of_chars l) = l.
Proof. apply list_ascii_of_string_of_list_ascii. Qed.

Lemma of_chars_nonempty l : l ≠ [] -> Str.of_chars l ≠ "".
Proof. by destruct l. Qed.

Lemma group_insert n tok (g : caps) : group (<[n := tok]> g) n = Str.of_chars tok.
Proof. unfold group. by rewrite lookup_insert_eq. Qed.

(** ** The eleven rules *)

Lemma rules_phrases :
  rules = imap (fun n ph => cat (ph ++ [Group (S n) ident])) phrases.
Proof. reflexivity. Qed.

Lemma object_pattern_rules : object_pattern = alt rule_from (tail rules).
Proof. reflexivity. Qed.

Lemma phrases_groupless : Forall (fun ph => groupless (cat ph) = true) phrases.
Proof. repeat constructor. Qed.

Lemma ident_set_chars c : set_matches object_flags ident_set c = is_ident_char c.
Proof. by destruct c as [[] [] [] [] [] [] [] []]. Qed.

Lemma ident_char_plain c :
  is_ident_char c = true -> Chr.is_space c = false /\ c ≠ ";"%char.
Proof. by destruct c as [[] [] [] [] [] [] [] []]. Qed.

(** A rule that matches has read its keyword phrase and then a whole
    identifier, which is its only capture. *)
Lemma rule_match n r prev inp rest g :
  rules !! n = Some r ->
  match_at object_flags r prev inp = Some (rest, g) ->
  exists ph body tok,
    phrases !! n = Some ph /\ inp = body ++ tok ++ rest /\
    reach object_flags (cat ph) (prev, inp, ∅) (last_char prev body, tok ++ rest, ∅) /\
    tok ≠ [] /\ Forall (fun a => is_ident_char a = true) tok /\
    stops_at is_ident_char rest /\ g = {[S n := tok]}.
Proof.
  rewrite rules_phrases, list_lookup_imap.
  destruct (phrases !! n) as [ph|] eqn:Hph; [|done]. intros [= <-] Hm.
  apply final_group_match in Hm
    as (body & tok & g1 & -> & Hreach & Hne & Htok & Hstop & ->).
  assert (Hgl : groupless (cat ph) = true).
  { by eapply (proj1 (Forall_lookup _ _) phrases_groupless). }
  pose proof (reach_groupless _ _ _ _ _ _ _ _ Hgl Hreach) as ->.
  exists ph, body, tok. split_and!; try done.
  - eapply Forall_impl; [done|]. intros a Ha. rewrite <- ident_set_chars. exact Ha.
  - destruct rest as [|c rest]; [done|].
    unfold stops_at. rewrite <- ident_set_chars. exact Hstop.
Qed.

Lemma group_singleton n tok i :
  group {[n := tok]} i = if decide (i = n) then Str.of_chars tok else "".
Proof.
  unfold group. destruct (decide (i = n)) as [->|Hne].
  - by rewrite lookup_singleton_eq.
  - by rewrite lookup_singleton_ne.
Qed.

(** On an identifier, [strip] and the removal of [;] change nothing. *)
Lemma lstrip_chars_plain l :
  Forall (fun a => Chr.is_space a = false) l -> Str.lstrip_chars l = l.
Proof. destruct 1 as [|c l Hc Hl]; simpl; [done|]. by rewrite Hc. Qed.

Lemma cleaned_name_ident tok :
  Forall (fun a => is_ident_char a = true) tok ->
  cleaned_name (Str.of_chars tok) = Str.upper (Str.of_chars tok).
Proof.
  intros Htok. unfold cleaned_name. f_equal.
  assert (Hsp : Forall (fun a => Chr.is_space a = false) tok).
  { eapply Forall_impl; [done|]. intros a Ha. by apply ident_char_plain in Ha as [? _]. }
  unfold Str.remove_char, Str.strip, Str.strip_chars.
  rewrite !chars_of_chars, (lstrip_chars_plain tok Hsp).
  rewrite lstrip_chars_plain by (by apply Forall_rev).
  rewrite rev_involutive. f_equal.
  clear Hsp. induction Htok as [|c l Hc Hl IH]; [done|].
  apply ident_char_plain in Hc as [_ Hc]. simpl.
  destruct (Ascii.eqb_spec c ";"%char) as [->|_]; [done|]. simpl. by rewrite IH.
Qed.

(** Each match of the object pattern is the match of one of the rules
    where it stands. *)
Lemma object_match_rule text w g :
  (w, g) ∈ object_matches text ->
  exists n r pre inp rest,
    rules !! n = Some r /\ text = pre ++ inp /\
    match_at object_flags r (last_char None pre) inp = Some (rest, g).
Proof.
  intros H. apply scan_matches in H as (pre & inp & rest & -> & Hm & _).
  rewrite object_pattern_rules in Hm.
  apply match_at_alt in Hm as (r & Hr & Hm).
  change (rule_from :: tail rules) with rules in Hr.
  apply list_elem_of_lookup in Hr as [n Hn].
  by exists n, r, pre, inp, rest.
Qed.

(** It has read a keyword phrase and then a whole identifier, which is its
    only capture, in the group of its rule. *)
Lemma object_match_shape text w g :
  (w, g) ∈ object_matches text ->
  exists n ph tok,
    phrases !! n = Some ph /\ follows object_flags ph is_ident_char text tok /\
    g = {[S n := tok]}.
Proof.
  intros H. apply object_match_rule in H as (n & r & pre & inp & rest & Hr & -> & Hm).
  destruct (rule_match _ _ _ _ _ _ Hr Hm)
    as (ph & body & tok & Hph & -> & Hreach & Hne & Htok & Hstop & ->).
  exists n, ph, tok. split_and!; [done| |done].
  by exists pre, body, rest, ∅.
Qed.

Lemma follows_token fl phrase cls text tok :
  follows fl phrase cls text tok -> tok ≠ [] /\ Forall (fun a => cls a = true) tok.
Proof. by intros (pre & body & post & g1 & _ & _ & Hne & Htok & _). Qed.

Lemma captured_names_object text x : captured text x -> names_object text x.
Proof.
  intros (w & g & n' & tok' & Hin & Hg & -> & Hseg).
  apply object_match_shape in Hin as (n & ph & tok & Hph & Hfol & ->).
  apply lookup_singleton_Some in Hg as [<- <-].
  exists tok. split; [|done]. by exists n, ph.
Qed.

(** What the tuples of [findall] contribute is what the matches
    capture. *)
Lemma contributes_captured sql_text x :
  contributes (findall object_flags object_pattern 11 sql_text) x
  <-> captured (Str.chars sql_text) x.
Proof.
  unfold contributes, captured, findall. fold (object_matches (Str.chars sql_text)).
  split.
  - intros (m & obj & Hm & Hobj & Hne & -> & Hseg).
    apply list_elem_of_fmap in Hm as ([w g] & -> & Hin). cbn [snd] in Hobj.
    apply list_elem_of_fmap in Hobj as (i & -> & Hi).
    destruct (object_match_shape _ _ _ Hin) as (n & ph & tok & Hph & Hfol & ->).
    apply follows_token in Hfol as [_ Htok].
    rewrite group_singleton in Hne, Hseg |- *.
    destruct (decide (i = S n)) as [->|_]; [|done].
    rewrite cleaned_name_ident in Hseg |- * by done.
    exists w, {[S n := tok]}, (S n), tok. by rewrite lookup_singleton_eq.
  - intros (w & g & n' & tok' & Hin & Hg & -> & Hseg).
    destruct (object_match_shape _ _ _ Hin) as (n & ph & tok & Hph & Hfol & ->).
    apply follows_token in Hfol as [Hne Htok].
    apply lookup_singleton_Some in Hg as [<- <-].
    exists (map (group {[S n := tok]}) (seq 1 11)), (Str.of_chars tok).
    split_and!.
    + apply list_elem_of_fmap. by exists (w, {[S n := tok]}).
    + apply list_elem_of_fmap. exists (S n). split.
      * rewrite group_singleton. by destruct (decide (S n = S n)).
      * apply elem_of_seq. apply lookup_lt_Some in Hph.
        change (length phrases) with 11 in Hph. lia.
    + by apply of_chars_nonempty.
    + symmetry. by apply cleaned_name_ident.
    + done.
Qed.

(** ** The procedure patterns *)

Lemma proc_set_chars c : set_matches proc_flags proc_set c = is_proc_char c.
Proof. by destruct c as [[] [] [] [] [] [] [] []]. Qed.

(** What the two searches capture is an identifier after the phrase. *)
Lemma create_match a sp sql_text :
  [a; sp] ∈ findall proc_flags create_pattern 2 sql_text ->
  exists tok, sp = Str.of_chars tok /\
    follows proc_flags create_phrase is_proc_char (Str.chars sql_text) tok.
Proof.
  unfold findall. intros H. apply list_elem_of_fmap in H as ([w g] & Heq & Hin).
  apply (scan_final_group proc_flags create_phrase 2 proc_set) in Hin
    as (tok & g1 & Hfol & ->).
  exists tok. split.
  - cbn [snd map seq] in Heq. injection Heq as _ ->. apply group_insert.
  - eapply follows_class; [|done]. apply proc_set_chars.
Qed.

Lemma call_match sp sql_text :
  sp ∈ findall1 proc_flags call_pattern sql_text ->
  exists tok, sp = Str.of_chars tok /\
    follows proc_flags call_phrase is_proc_char (Str.chars sql_text) tok.
Proof.
  unfold findall1. intros H. apply list_elem_of_fmap in H as ([w g] & -> & Hin).
  apply (scan_final_group proc_flags call_phrase 1 proc_set) in Hin
    as (tok & g1 & Hfol & ->).
  exists tok. split.
  - apply group_insert.
  - eapply follows_class; [|done]. apply proc_set_chars.
Qed.

Lemma procedure_of_names sql_text x :
  procedure_of sql_text x -> names_procedure (Str.chars sql_text) x.
Proof.
  intros [(a & sp & Hin & ->)|(sp & Hin & ->)].
  - apply create_match in Hin as (tok & -> & Hfol). exists tok. split; [done|by left].
  - apply call_match in Hin as (tok & -> & Hfol). exists tok. split; [done|by right].
Qed.

(** ** Patterns without [\b] *)

Lemma many_greedy_blind p k : blind k -> blind (many_greedy p k).
Proof.
  intros Hk prev prev' inp g. revert prev prev'.
  induction inp as [|c inp IH]; intros prev prev'; simpl; [apply Hk|].
  by rewrite (Hk prev prev').
Qed.

Lemma many_lazy_blind p k : blind k -> blind (many_lazy p k).
Proof.
  intros Hk prev prev' inp g. revert prev prev'.
  induction inp as [|c inp IH]; intros prev prev'; simpl; by rewrite (Hk prev prev').
Qed.

(** Such a pattern matches the same way whatever stands before the
    cursor. *)
Lemma run_blind fl r k : boundary_free r = true -> blind k -> blind (run fl r k).
Proof.
  revert k.
  induction r as [|set| |r1 IH1 r2 IH2|r1 IH1 r2 IH2|r1 IH1|set|set|set|n r1 IH1];
    intros k Hr Hk prev prev' inp g; simpl in *; try done.
  - apply andb_prop in Hr as [Hr1 Hr2].
    apply (IH1 (run fl r2 k)); [done|]. by apply IH2.
  - apply andb_prop in Hr as [Hr1 Hr2].
    by rewrite (IH1 k Hr1 Hk prev prev'), (IH2 k Hr2 Hk prev prev').
  - by rewrite (IH1 k Hr Hk prev prev'), (Hk prev prev').
  - by apply many_greedy_blind.
  - by apply many_lazy_blind.
  - apply (IH1 (fun prev' inp' g' => k prev' inp' (<[n := consumed inp inp']> g')));
      [done|]. intros a a' b c. apply Hk.
Qed.

Lemma match_at_blind fl r prev prev' inp :
  boundary_free r = true -> match_at fl r prev inp = match_at fl r prev' inp.
Proof. intros Hr. by apply run_blind. Qed.

Lemma scan_blind fl r skip prev prev' inp :
  boundary_free r = true -> scan fl r skip prev inp = scan fl r skip prev' inp.
Proof.
  intros Hr. revert skip prev prev'.
  induction inp as [|c inp IH]; intros skip prev prev'; cbn [scan]; [done|].
  by rewrite (match_at_blind fl r prev prev').
Qed.

(** ** The comment patterns *)

Lemma clean_sql_unfold sql_text :
  clean_sql sql_text
  = Str.lower (Str.of_chars
      (remove_line_comments (remove_block_comments (Str.chars sql_text)))).
Proof.
  unfold clean_sql, sub_empty, remove_line_comments, remove_block_comments.
  by rewrite chars_of_chars.
Qed.

(** [after_close] finds the first [*/]. *)
Lemma after_close_Some l rest :
  after_close l = Some rest <-> exists body, l = body ++ closer ++ rest /\ unclosed body.
Proof.
  split.
  - revert rest. induction l as [|a l IH]; intros rest; [done|].
    destruct l as [|b l]; [done|].
    change (after_close (a :: b :: l))
      with (if Ascii.eqb a "*" && Ascii.eqb b "/" then Some l else after_close (b :: l)).
    destruct (Ascii.eqb_spec a "*") as [->|Ha]; simpl.
    + destruct (Ascii.eqb_spec b "/") as [->|Hb].
      * intros [= ->]. exists []. split; [done|]. intros u v. by destruct u.
      * intros H. apply IH in H as (body & Hl & Hbody).
        exists ("*"%char :: body). split; [by rewrite Hl|].
        intros [|c u] v Heq; simplify_eq/=. by eapply Hbody.
    + intros H. apply IH in H as (body & Hl & Hbody).
      exists (a :: body). split; [by rewrite Hl|].
      intros [|c u] v Heq; simplify_eq/=. by eapply Hbody.
  - intros (body & -> & Hbody).
    induction body as [|a body IH]; [done|].
    assert (Hbody' : unclosed body).
    { intros u v ->. by apply (Hbody (a :: u) v). }
    destruct body as [|b body].
    + simpl. destruct (Ascii.eqb_spec a "*") as [->|Ha]; simpl; by apply IH.
    + change (after_close ((a :: b :: body) ++ closer ++ rest))
        with (if Ascii.eqb a "*" && Ascii.eqb b "/" then Some (body ++ closer ++ rest)
              else after_close ((b :: body) ++ closer ++ rest)).
      destruct (Ascii.eqb_spec a "*") as [->|Ha]; simpl; [|by apply IH].
      destruct (Ascii.eqb_spec b "/") as [->|Hb]; [|by apply IH].
      by destruct (Hbody [] body).
Qed.

Lemma item_lit_block a c : item_matches block_flags (Lit a) c = Ascii.eqb c a.
Proof. unfold item_matches. simpl. by rewrite !orb_false_r. Qed.

Lemma set_dot_block c : set_matches block_flags [Dot] c = true.
Proof. done. Qed.

(** What the block pattern does at a position. *)
Lemma match_at_block prev l :
  match_at block_flags block_comment prev l =
  match l with
  | a :: b :: t =>
      if Ascii.eqb a "/" && Ascii.eqb b "*"
      then option_map (fun rest => (rest, ∅)) (after_close t)
      else None
  | _ => None
  end.
Proof.
  unfold match_at. destruct l as [|a [|b t]]; simpl.
  - done.
  - by destruct (item_matches block_flags (Lit "/") a || false).
  - rewrite !item_lit_block, !orb_false_r.
    destruct (Ascii.eqb a "/"); [|done].
    destruct (Ascii.eqb b "*"); [|done]. cbn [andb].
    match goal with |- context [many_lazy _ ?k] => set (K := k) end.
    generalize (Some b). clear a b prev.
    induction t as [|a t IH]; intros prev; [done|].
    cbn [many_lazy]. rewrite set_dot_block, IH.
    unfold K at 1. rewrite item_lit_block, orb_false_r.
    destruct t as [|b t].
    + by destruct (Ascii.eqb a "*").
    + change (after_close (a :: b :: t))
        with (if Ascii.eqb a "*" && Ascii.eqb b "/" then Some t else after_close (b :: t)).
      rewrite item_lit_block, orb_false_r.
      destruct (Ascii.eqb a "*"); [|done].
      by destruct (Ascii.eqb b "/").
Qed.

Lemma item_lit_line a c : item_matches line_flags (Lit a) c = Ascii.eqb c a.
Proof. unfold item_matches. simpl. by rewrite !orb_false_r. Qed.

Lemma set_dot_line c : set_matches line_flags [Dot] c = negb (Ascii.eqb c newline).
Proof. unfold set_matches, item_matches. simpl. by rewrite !orb_false_r. Qed.

(** What the line pattern does at a position. *)
Lemma match_at_line prev l :
  match_at line_flags line_comment prev l =
  match l with
  | a :: b :: t =>
      if Ascii.eqb a "-" && Ascii.eqb b "-" then Some (to_line_end t, ∅) else None
  | _ => None
  end.
Proof.
  unfold match_at. destruct l as [|a [|b t]]; simpl.
  - done.
  - by destruct (item_matches line_flags (Lit "-") a || false).
  - rewrite !item_lit_line, !orb_false_r.
    destruct (Ascii.eqb a "-"); [|done].
    destruct (Ascii.eqb b "-"); [|done]. cbn [andb].
    generalize (Some b). clear a b prev.
    induction t as [|a t IH]; intros prev; [done|].
    cbn [many_greedy to_line_end]. rewrite set_dot_line, IH.
    by destruct (Ascii.eqb a newline).
Qed.

Lemma to_line_end_app body rest :
  Forall (fun a => a ≠ newline) body ->
  match rest with [] => True | c :: _ => c = newline end ->
  to_line_end (body ++ rest) = rest.
Proof.
  intros Hbody Hrest. induction Hbody as [|a body Ha Hbody IH]; simpl.
  - destruct rest as [|c rest]; [done|]. simpl. subst c. by rewrite Ascii.eqb_refl.
  - by destruct (Ascii.eqb_spec a newline).
Qed.

(** *** The equations of comment removal *)

Lemma remove_block_nil : remove_block_comments [] = [].
Proof. done. Qed.

Lemma remove_block_comment body rest :
  unclosed body ->
  remove_block_comments (opener ++ body ++ closer ++ rest) = remove_block_comments rest.
Proof.
  intros Hbody. unfold remove_block_comments.
  assert (Hm : match_at block_flags block_comment None ((opener ++ body ++ closer) ++ rest)
               = Some (rest, ∅)).
  { rewrite match_at_block. simpl.
    rewrite <- app_assoc.
    by rewrite (proj2 (after_close_Some (body ++ closer ++ rest) rest)
                 (ex_intro _ body (conj eq_refl Hbody))). }
  replace (opener ++ body ++ closer ++ rest) with ((opener ++ body ++ closer) ++ rest)
    by (by rewrite <- !app_assoc).
  assert (Hne : opener ++ body ++ closer ≠ []) by done.
  rewrite (scan_found _ _ _ _ _ _ Hne Hm), kept_of_Found.
  by apply f_equal, scan_blind.
Qed.

Lemma remove_block_other c l :
  ~ (exists body rest, c :: l = opener ++ body ++ closer ++ rest) ->
  remove_block_comments (c :: l) = c :: remove_block_comments l.
Proof.
  intros Hno. unfold remove_block_comments.
  rewrite scan_kept.
  - rewrite kept_of_Kept. f_equal. by apply f_equal, scan_blind.
  - rewrite match_at_block. destruct l as [|b t]; [done|].
    destruct (Ascii.eqb_spec c "/") as [->|Hc]; [|done].
    destruct (Ascii.eqb_spec b "*") as [->|Hb]; [|done]. simpl.
    destruct (after_close t) as [rest|] eqn:E; [|done].
    apply after_close_Some in E as (body & -> & _).
    destruct Hno. by exists body, rest.
Qed.

Lemma remove_line_nil : remove_line_comments [] = [].
Proof. done. Qed.

Lemma remove_line_comment body rest :
  Forall (fun a => a ≠ newline) body ->
  match rest with [] => True | c :: _ => c = newline end ->
  remove_line_comments (dashes ++ body ++ rest) = remove_line_comments rest.
Proof.
  intros Hbody Hrest. unfold remove_line_comments.
  assert (Hm : match_at line_flags line_comment None ((dashes ++ body) ++ rest)
               = Some (rest, ∅)).
  { rewrite match_at_line. simpl. by rewrite to_line_end_app. }
  replace (dashes ++ body ++ rest) with ((dashes ++ body) ++ rest)
    by (by rewrite <- !app_assoc).
  assert (Hne : dashes ++ body ≠ []) by done.
  rewrite (scan_found _ _ _ _ _ _ Hne Hm), kept_of_Found.
  by apply f_equal, scan_blind.
Qed.

Lemma remove_line_other c l :
  ~ (exists rest, c :: l = dashes ++ rest) ->
  remove_line_comments (c :: l) = c :: remove_line_comments l.
Proof.
  intros Hno. unfold remove_line_comments.
  rewrite scan_kept.
  - rewrite kept_of_Kept. f_equal. by apply f_equal, scan_blind.
  - rewrite match_at_line. destruct l as [|b t]; [done|].
    destruct (Ascii.eqb_spec c "-") as [->|Hc]; [|done].
    destruct (Ascii.eqb_spec b "-") as [->|Hb]; [|done].
    destruct Hno. by exists t.
Qed.

(** ** Every pattern of the program reads at least one character *)

Lemma reach_consuming fl r prev inp g prev' inp' g' :
  reach fl r (prev, inp, g) (prev', inp', g') ->
  length inp' <= length inp /\ (consuming r = true -> length inp' < length inp).
Proof.
  intros H.
  remember (prev, inp, g) as c eqn:Ec. remember (prev', inp', g') as c' eqn:Ec'.
  revert prev inp g prev' inp' g' Ec Ec'.
  induction H as [c|set p a i g0 Ha|p i g0 Hb|r1 r2 c1 [[p2 i2] g2] c3 H1 IH1 H2 IH2
                 |r1 r2 c1 c2 H1 IH1|r1 r2 c1 c2 H1 IH1|r1 c1 c2 H1 IH1|r1 c
                 |set p w i g0 Hne Hw|set p w i g0 Hw|set p w i g0 Hw
                 |n r1 p i g0 p' i' g0' H1 IH1];
    intros prev inp g prev' inp' g' Ec Ec'; simplify_eq; cbn [consuming].
  - done.
  - simpl. split; [lia|intros _; lia].
  - done.
  - destruct (IH1 _ _ _ _ _ _ eq_refl eq_refl) as [Hle1 Hlt1].
    destruct (IH2 _ _ _ _ _ _ eq_refl eq_refl) as [Hle2 Hlt2].
    split; [lia|]. intros [Hc|Hc]%orb_prop; [apply Hlt1 in Hc|apply Hlt2 in Hc]; lia.
  - destruct (IH1 _ _ _ _ _ _ eq_refl eq_refl) as [Hle1 Hlt1].
    split; [done|]. intros [Hc _]%andb_prop. auto.
  - destruct (IH1 _ _ _ _ _ _ eq_refl eq_refl) as [Hle1 Hlt1].
    split; [done|]. intros [_ Hc]%andb_prop. auto.
  - destruct (IH1 _ _ _ _ _ _ eq_refl eq_refl) as [Hle1 _]. done.
  - done.
  - rewrite length_app. destruct w; [done|]. simpl. split; [lia|intros _; lia].
  - rewrite length_app. split; [lia|done].
  - rewrite length_app. split; [lia|done].
  - by apply (IH1 _ _ _ _ _ _ eq_refl eq_refl).
Qed.

(** So the scan never meets an empty match. *)
Lemma match_at_consumes fl r prev inp rest g :
  consuming r = true ->
  match_at fl r prev inp = Some (rest, g) -> length rest < length inp.
Proof.
  intros Hc H. apply run_sound in H as (p1 & i1 & g1 & Hreach & [= <- <-]).
  apply reach_consuming in Hreach as [_ Hlt]. by apply Hlt.
Qed.

Lemma patterns_consume :
  Forall (fun r => consuming r = true)
    [block_comment; line_comment; object_pattern; create_pattern; call_pattern].
Proof. by repeat constructor. Qed.

(** ** What is left after [clean_sql] *)

Lemma lower_not_upper c : Chr.is_upper (Chr.lower c) = false.
Proof. by destruct c as [[] [] [] [] [] [] [] []]. Qed.

Lemma lower_dash c : Chr.lower c = "-"%char -> c = "-"%char.
Proof. destruct c as [[] [] [] [] [] [] [] []]; vm_compute; congruence. Qed.

Lemma to_line_end_split t :
  exists body, t = body ++ to_line_end t /\
    Forall (fun a => a ≠ newline) body /\
    match to_line_end t with [] => True | c :: _ => c = newline end.
Proof.
  induction t as [|c t (body & Ht & Hbody & Hrest)]; simpl.
  { by exists []. }
  destruct (Ascii.eqb_spec c newline) as [->|Hc].
  - by exists [].
  - exists (c :: body). split_and!; [simpl; by rewrite <- Ht|by constructor|done].
Qed.

(** No [--] is left by the removal of the line comments, and what is left
    starts with a dash only if the text did. *)
Lemma remove_line_no_dashes l :
  (forall u v, remove_line_comments l ≠ u ++ dashes ++ v) /\
  (forall t, remove_line_comments l = "-"%char :: t -> exists t', l = "-"%char :: t').
Proof.
  remember (length l) as n eqn:Hn. revert l Hn.
  induction n as [n IH] using lt_wf_ind. intros l ->.
  destruct l as [|c l'].
  { rewrite remove_line_nil. split; [|done]. intros u v H. by destruct u. }
  assert (Hcase : (exists rest, c :: l' = dashes ++ rest)
                  \/ ~ (exists rest, c :: l' = dashes ++ rest)).
  { destruct l' as [|d l'']; [right; by intros [rest [=]]|].
    destruct (decide (c = "-"%char)) as [->|Hc]; [|right; intros [rest [=]]; done].
    destruct (decide (d = "-"%char)) as [->|Hd]; [|right; intros [rest [=]]; done].
    left. by exists l''. }
  destruct Hcase as [[rest Hrest]|Hno].
  - injection Hrest as -> ->.
    destruct (to_line_end_split rest) as (body & Hbody & Hnl & Hend).
    assert (Hrw : remove_line_comments ("-"%char :: "-"%char :: rest)
                  = remove_line_comments (to_line_end rest)).
    { rewrite Hbody at 1.
      apply (remove_line_comment body (to_line_end rest) Hnl Hend). }
    rewrite Hrw.
    destruct (IH (length (to_line_end rest))) with (l := to_line_end rest) as [H1 _].
    { rewrite Hbody at 2. simpl. rewrite length_app. lia. }
    { done. }
    split; [done|]. intros t _. by eexists.
  - rewrite (remove_line_other c l' Hno).
    destruct (IH (length l')) with (l := l') as [H1 H2]; [simpl; lia|done|].
    split.
    + intros [|a u] v Heq.
      * injection Heq as -> Heq. apply H2 in Heq as [t' ->].
        apply Hno. by exists t'.
      * injection Heq as -> Heq. by apply H1 in Heq.
    + intros t [= -> _]. by eexists.
Qed.

Lemma clean_sql_lowercase sql_text :
  Forall (fun c => Chr.is_upper c = false) (Str.chars (clean_sql sql_text)).
Proof.
  unfold clean_sql, Str.lower. rewrite chars_of_chars.
  apply Forall_fmap, Forall_true. intros c. apply lower_not_upper.
Qed.

Lemma clean_sql_no_dashes sql_text u v :
  Str.chars (clean_sql sql_text) ≠ u ++ dashes ++ v.
Proof.
  rewrite clean_sql_unfold. unfold Str.lower. rewrite !chars_of_chars.
  intros H.
  apply fmap_app_inv in H as (l1 & l2 & _ & H & Hl). symmetry in H.
  apply fmap_app_inv in H as (d & l3 & Hd & _ & ->).
  destruct d as [|d1 [|d2 [|? ?]]]; try discriminate Hd.
  injection Hd as Hd1 Hd2. symmetry in Hd1, Hd2.
  apply lower_dash in Hd1 as ->. apply lower_dash in Hd2 as ->.
  by apply (proj1 (remove_line_no_dashes _) l1 l3) in Hl.
Qed.

(** * The claims *)



(** C2.  [remove_redundancy] returns a subset of its argument that keeps
    every dotted name, and keeps a dot-free name exactly when it is the
    final segment of no dotted name of the argument; the order in which
    the two sets are visited does not change the result; with
    SALES.ORDERS in the argument, SALES.ORDERS is kept and ORDERS is
    not. *)
Theorem remove_redundancy_prefers_schema (objects : gset string) :
  exists r, remove_redundancy objects = Ok r /\
    (forall x, x ∈ r -> x ∈ objects) /\
    (forall x, x ∈ objects -> has_dot x -> x ∈ r) /\
    (forall x, x ∈ objects -> ~ has_dot x ->
       (x ∈ r <-> ~ exists y, y ∈ objects /\ has_dot y /\ last_segment y = Ok x)) /\
    (forall schema_visit noschema_visit,
       schema_visit ≡ₚ elements (filter has_dot objects) ->
       noschema_visit ≡ₚ elements (filter (fun obj => ~ has_dot obj) objects) ->
       resolve_loop schema_visit noschema_visit (filter has_dot objects) = Ok r) /\
    ("SALES.ORDERS" ∈ objects -> "SALES.ORDERS" ∈ r /\ ("ORDERS" ∉ r)) /\
    (extract_objects (clean_sql "SELECT * FROM sales.orders; SELECT * FROM orders")
       ≫= remove_redundancy) = Ok {["SALES.ORDERS"]}.
Proof.
  destruct (remove_redundancy_spec objects) as (r & Hr & Hres).
  exists r. split_and!; [done|..].
  - intros x Hx. by apply Hres in Hx as [? _].
  - intros x Hx Hd. apply Hres. split; [done|by left].
  - intros x Hx Hnd. rewrite Hres. unfold resolved. tauto.
  - intros sv nv Hsv Hnv.
    destruct (resolve_loop_resolved objects sv nv Hsv Hnv) as (r' & -> & Hres').
    f_equal. apply set_eq. intros x. by rewrite Hres, Hres'.
  - intros Hin. split.
    + apply Hres. split; [done|by left].
    + intros Hx. apply Hres in Hx as [_ [Hd|Hno]]; [done|].
      apply Hno. by exists "SALES.ORDERS".
  - vm_compute; reflexivity.
Qed.

(** C3.  [categorize] files every name of its argument under exactly one
    label, the label of the first prefix of the priority table that
    starts the final dot-segment of the name (the catch-all when none
    does); it files no name that is not in its argument, and none twice;
    LP_DW_STAGE goes to LP_OBJECTS. *)
Theorem categorize_first_prefix (objects : gset string) :
  exists categories, categorize objects = Ok categories /\
    (forall x, x ∈ objects ->
       exists seg, last_segment x = Ok seg /\
         forall label, filed categories label x <-> label = category_of seg) /\
    (forall label x, filed categories label x -> x ∈ objects) /\
    (forall label l, categories !! label = Some l -> NoDup l) /\
    category_of "LP_DW_STAGE" = "LP_OBJECTS" /\
    categorize {["LP_DW_STAGE"]} = Ok {["LP_OBJECTS" := ["LP_DW_STAGE"]]}.
Proof.
  unfold categorize, categorize_visit.
  destruct (categorize_loop_spec (elements objects) ∅) as (c & Hc & Hfiled).
  assert (Hempty : forall label x, ~ filed (∅ : gmap string (list string)) label x).
  { intros label x (l & Hl & _). by rewrite lookup_empty in Hl. }
  exists c. split_and!; [done|..].
  - intros x Hx. destruct (last_segment_ok x) as [seg Hseg]. exists seg.
    split; [done|]. intros label. rewrite Hfiled. split.
    + intros [H|[_ (seg' & Hseg' & ->)]]; [by apply Hempty in H|].
      rewrite Hseg in Hseg'. by injection Hseg' as <-.
    + intros ->. right. split; [by apply elem_of_elements|]. by exists seg.
  - intros label x Hx. apply Hfiled in Hx as [H|[Hx _]]; [by apply Hempty in H|].
    by apply elem_of_elements.
  - destruct (categorize_loop_NoDup (elements objects) ∅) as (c' & Hc' & Hnd).
    + apply NoDup_elements.
    + intros label l Hl. by rewrite lookup_empty in Hl.
    + intros label x H. by apply Hempty in H.
    + rewrite Hc in Hc'. by injection Hc' as <-.
  - done.
  - vm_compute; reflexivity.
Qed.

(** C4.  No name returned by [extract_objects] has a block keyword as its
    final dot-segment, so WHERE, AND and SELECT are never returned, and
    what [remove_redundancy] makes of the set has the same property. *)
Theorem no_block_keyword_object sql_text objects :
  extract_objects sql_text = Ok objects ->
  (forall x seg, x ∈ objects -> last_segment x = Ok seg -> seg ∉ BLOCK_KEYWORDS) /\
  (("WHERE" ∉ objects) /\ ("AND" ∉ objects) /\ ("SELECT" ∉ objects)) /\
  (forall r x seg,
     remove_redundancy objects = Ok r ->
     x ∈ r -> last_segment x = Ok seg -> seg ∉ BLOCK_KEYWORDS).
Proof.
  intros Hobj.
  destruct (extract_objects_spec sql_text) as (objects' & Hobj' & Hin).
  rewrite Hobj in Hobj'. injection Hobj' as <-.
  assert (Hkw : forall x seg,
    x ∈ objects -> last_segment x = Ok seg -> seg ∉ BLOCK_KEYWORDS).
  { intros x seg Hx Hseg. apply Hin in Hx as (m & obj & _ & _ & _ & _ & seg' & Hseg' & Hout).
    rewrite Hseg in Hseg'. by injection Hseg' as <-. }
  split_and!; [done|..].
  - intros Hx. by apply (Hkw _ "WHERE" Hx).
  - intros Hx. by apply (Hkw _ "AND" Hx).
  - intros Hx. by apply (Hkw _ "SELECT" Hx).
  - intros r x seg Hr Hx. apply Hkw.
    destruct (remove_redundancy_spec objects) as (r' & Hr' & Hres).
    rewrite Hr in Hr'. injection Hr' as <-. by apply Hres in Hx as [Hx _].
Qed.

(** The theorem at a text with a malformed DELETE and a keyword-laden
    condition, from which only T is extracted. *)
Lemma no_block_keyword_object_witness :
  extract_objects "DELETE FROM WHERE x = 1 AND y IN (SELECT 1 FROM t)" = Ok {["T"]} /\
  ("T" ∉ BLOCK_KEYWORDS) /\
  ("WHERE" ∉ ({["T"]} : gset string)).
Proof.
  assert (H : extract_objects "DELETE FROM WHERE x = 1 AND y IN (SELECT 1 FROM t)"
              = Ok {["T"]}) by (vm_compute; reflexivity).
  destruct (no_block_keyword_object _ _ H) as (Hkw & (Hwhere & _) & _).
  split_and!; [exact H| |exact Hwhere].
  apply (Hkw "T" "T"); [by apply elem_of_singleton|vm_compute; reflexivity].
Defined.



(** C6.  [clean_sql] lower-cases what is left once the block comments and
    then the line comments are removed.  Removing block comments drops a
    [/*], the shortest text up to a [*/] (newlines included) and that
    [*/], and keeps a character at which no terminated comment starts;
    removing line comments drops a [--] and the rest of its line, and
    keeps a character at which no [--] starts.  The result has no
    upper-case letter and no [--].  On the two sample texts
    [extract_objects] then returns FOO.BAR alone and Y alone. *)
Theorem clean_sql_strips_comments :
  (forall sql_text,
     clean_sql sql_text
     = Str.lower (Str.of_chars
         (remove_line_comments (remove_block_comments (Str.chars sql_text))))) /\
  remove_block_comments [] = [] /\
  (forall body rest,
     unclosed body ->
     remove_block_comments (opener ++ body ++ closer ++ rest)
     = remove_block_comments rest) /\
  (forall c l,
     ~ (exists body rest, c :: l = opener ++ body ++ closer ++ rest) ->
     remove_block_comments (c :: l) = c :: remove_block_comments l) /\
  remove_line_comments [] = [] /\
  (forall body rest,
     Forall (fun a => a ≠ newline) body ->
     match rest with [] => True | c :: _ => c = newline end ->
     remove_line_comments (dashes ++ body ++ rest) = remove_line_comments rest) /\
  (forall c l,
     ~ (exists rest, c :: l = dashes ++ rest) ->
     remove_line_comments (c :: l) = c :: remove_line_comments l) /\
  (forall sql_text,
     Forall (fun c => Chr.is_upper c = false) (Str.chars (clean_sql sql_text))) /\
  (forall sql_text u v, Str.chars (clean_sql sql_text) ≠ u ++ dashes ++ v) /\
  extract_objects (clean_sql "SELECT * FROM /* comment */ foo.bar") = Ok {["FOO.BAR"]} /\
  extract_objects (clean_sql ("-- select * from x" +:+ NL +:+ "select * from y"))
    = Ok {["Y"]}.
Proof.
  split_and!.
  - apply clean_sql_unfold.
  - apply remove_block_nil.
  - apply remove_block_comment.
  - apply remove_block_other.
  - apply remove_line_nil.
  - apply remove_line_comment.
  - apply remove_line_other.
  - apply clean_sql_lowercase.
  - apply clean_sql_no_dashes.
  - vm_compute; reflexivity.
  - vm_compute; reflexivity.
Qed.

(** C7.  No stage of the pipeline raises: [extract_objects] and
    [extract_stored_procedures] return on every text, [remove_redundancy]
    and [categorize] on every set of names, and so does the whole
    pipeline, [clean_sql] included (in the model [clean_sql] has no
    operation that can raise).  Truncated statements give the empty set. *)
Theorem stages_never_raise :
  (forall sql_text, exists objects, extract_objects sql_text = Ok objects) /\
  (forall sql_text, exists l, extract_stored_procedures sql_text = Ok l) /\
  (forall objects, exists r, remove_redundancy objects = Ok r) /\
  (forall objects, exists categories, categorize objects = Ok categories) /\
  (forall sql_text, exists categories, pipeline sql_text = Ok categories) /\
  extract_objects (clean_sql "SELECT * FROM") = Ok ∅ /\
  extract_objects (clean_sql "INSERT INTO ") = Ok ∅ /\
  extract_stored_procedures (clean_sql "CREATE OR REPLACE PROCEDURE") = Ok [].
Proof.
  assert (H1 : forall sql_text, exists objects, extract_objects sql_text = Ok objects).
  { intros s. destruct (extract_objects_spec s) as (objects & H & _). eauto. }
  assert (H2 : forall sql_text, exists l, extract_stored_procedures sql_text = Ok l).
  { intros s. destruct (extract_stored_procedures_spec s) as (l & H & _). eauto. }
  assert (H3 : forall objects, exists r, remove_redundancy objects = Ok r).
  { intros S. destruct (remove_redundancy_spec S) as (r & H & _). eauto. }
  assert (H4 : forall objects, exists categories, categorize objects = Ok categories).
  { intros S. destruct (categorize_loop_spec (elements S) ∅) as (c & H & _). eauto. }
  split_and!; try done.
  intros s. unfold pipeline.
  destruct (H1 (clean_sql s)) as [objects ->]. rewrite bind_Ok.
  destruct (H3 objects) as [r ->]. rewrite bind_Ok.
  destruct (H4 r) as [c ->]. rewrite bind_Ok.
  destruct (H2 (clean_sql s)) as [l ->]. rewrite bind_Ok. eauto.
Qed.

(** C8.  On the empty text [clean_sql] gives the empty text,
    [extract_objects] the empty set, [categorize] of the empty set a
    dictionary with no entry, [extract_stored_procedures] the empty
    list, and nothing raises. *)
Theorem empty_input :
  clean_sql "" = "" /\
  extract_objects (clean_sql "") = Ok ∅ /\
  categorize ∅ = Ok ∅ /\
  extract_stored_procedures (clean_sql "") = Ok [] /\
  pipeline "" = Ok {[STORED_PROCEDURES := []]}.
Proof. split_and!; vm_compute; reflexivity. Qed.

(** C9.  [remove_redundancy] shrinks its argument and is idempotent. *)
Theorem remove_redundancy_idempotent (objects : gset string) :
  exists r, remove_redundancy objects = Ok r /\ r ⊆ objects /\
    remove_redundancy r = Ok r.
Proof.
  destruct (remove_redundancy_spec objects) as (r & Hr & Hres).
  exists r. split_and!; [done|..].
  - intros x Hx. by apply Hres in Hx as [? _].
  - destruct (remove_redundancy_spec r) as (r' & -> & Hres').
    f_equal. apply set_eq. intros x. rewrite Hres'. unfold resolved.
    rewrite !Hres. unfold resolved. split.
    + intros [? _]. done.
    + intros [Hx Hd]. split; [done|]. destruct Hd as [Hd|Hno]; [by left|right].
      intros (y & Hy & Hdy & Hlast). apply Hno. exists y.
      apply Hres in Hy as [Hy _]. done.
Qed.

(** C10.  The definition pattern is not anchored: [create] at the end of
    a longer word still starts a match, whereas [exec] at the end of a
    longer word does not. *)
Theorem create_pattern_unanchored :
  extract_stored_procedures "recreate procedure foo" = Ok ["FOO"] /\
  extract_stored_procedures "reexec foo" = Ok [] /\
  extract_stored_procedures "exec foo" = Ok ["FOO"].
Proof. split_and!; vm_compute; reflexivity. Qed.

(** * Further properties *)

(** ** The case of the letters *)

Lemma lower_lower c : Chr.lower (Chr.lower c) = Chr.lower c.
Proof. by destruct c as [[] [] [] [] [] [] [] []]. Qed.
Lemma upper_lower c : Chr.upper (Chr.lower c) = Chr.upper c.
Proof. by destruct c as [[] [] [] [] [] [] [] []]. Qed.
Lemma case_variants c : c = Chr.lower c \/ c = Chr.upper c.
Proof. destruct c as [[] [] [] [] [] [] [] []]; vm_compute; auto. Qed.
Lemma is_word_lower c : Chr.is_word (Chr.lower c) = Chr.is_word c.
Proof. by destruct c as [[] [] [] [] [] [] [] []]. Qed.
Lemma is_space_lower c : Chr.is_space (Chr.lower c) = Chr.is_space c.
Proof. by destruct c as [[] [] [] [] [] [] [] []]. Qed.
Lemma semicolon_lower c : Ascii.eqb (Chr.lower c) ";" = Ascii.eqb c ";".
Proof. by destruct c as [[] [] [] [] [] [] [] []]. Qed.

Lemma item_matches_lower fl i c :
  ignorecase fl = true -> item_matches fl i (Chr.lower c) = item_matches fl i c.
Proof.
  intros Hfl. unfold item_matches. rewrite Hfl, lower_lower, upper_lower. cbn [andb].
  assert (Hc : item_is fl i c = item_is fl i (Chr.lower c)
               \/ item_is fl i c = item_is fl i (Chr.upper c)).
  { destruct (case_variants c) as [H|H]; [left|right]; by rewrite <- H. }
  destruct Hc as [-> | ->];
    by destruct (item_is fl i (Chr.lower c)), (item_is fl i (Chr.upper c)).
Qed.

Lemma set_matches_lower fl set c :
  ignorecase fl = true -> set_matches fl set (Chr.lower c) = set_matches fl set c.
Proof.
  intros Hfl. unfold set_matches. induction set as [|i set IH]; simpl; [done|].
  by rewrite item_matches_lower, IH.
Qed.

Lemma at_boundary_lower prev inp :
  at_boundary (Chr.lower <$> prev) (lower_chars inp) = at_boundary prev inp.
Proof.
  unfold at_boundary. f_equal.
  - destruct prev; simpl; [apply is_word_lower|done].
  - destruct inp; simpl; [done|apply is_word_lower].
Qed.

Lemma consumed_lower inp rest :
  consumed (lower_chars inp) (lower_chars rest) = lower_chars (consumed inp rest).
Proof.
  unfold consumed, lower_chars. rewrite !length_map. symmetry. apply fmap_take.
Qed.

Lemma many_greedy_lower p k k' :
  (forall c, p (Chr.lower c) = p c) ->
  lower_sim k k' -> lower_sim (many_greedy p k) (many_greedy p k').
Proof.
  intros Hp Hk prev inp g. revert prev.
  induction inp as [|c inp IH]; intros prev; [apply (Hk prev [])|].
  change (lower_chars (c :: inp)) with (Chr.lower c :: lower_chars inp).
  cbn [many_greedy]. rewrite Hp. destruct (p c); [|apply (Hk prev (c :: inp))].
  change (Some (Chr.lower c)) with (Chr.lower <$> Some c). rewrite (IH (Some c)).
  destruct (many_greedy p k (Some c) inp g); [done|]. apply (Hk prev (c :: inp)).
Qed.

Lemma many_lazy_lower p k k' :
  (forall c, p (Chr.lower c) = p c) ->
  lower_sim k k' -> lower_sim (many_lazy p k) (many_lazy p k').
Proof.
  intros Hp Hk prev inp g. revert prev.
  induction inp as [|c inp IH]; intros prev.
  - pose proof (Hk prev [] g) as H0. simpl in *. rewrite H0.
    by destruct (k prev [] g).
  - change (lower_chars (c :: inp)) with (Chr.lower c :: lower_chars inp).
    cbn [many_lazy].
    change (Chr.lower c :: lower_chars inp) with (lower_chars (c :: inp)).
    rewrite (Hk prev (c :: inp)). destruct (k prev (c :: inp) g); [done|].
    rewrite Hp. destruct (p c); [|done]. apply (IH (Some c)).
Qed.

(** Under IGNORECASE the matcher does on the lower-cased text what it does
    on the text. *)
Lemma run_lower fl r k k' :
  ignorecase fl = true -> lower_sim k k' -> lower_sim (run fl r k) (run fl r k').
Proof.
  intros Hfl. revert k k'.
  induction r as [|set| |r1 IH1 r2 IH2|r1 IH1 r2 IH2|r1 IH1|set|set|set|n r1 IH1];
    intros k k' Hk prev inp g; cbn [run].
  - apply Hk.
  - destruct inp as [|c inp]; [done|]. cbn [lower_chars map].
    rewrite set_matches_lower by done.
    destruct (set_matches fl set c); [apply (Hk (Some c))|done].
  - rewrite at_boundary_lower. destruct (at_boundary prev inp); [apply Hk|done].
  - apply IH1. intros p i g'. by apply IH2.
  - rewrite (IH1 k k' Hk). destruct (run fl r1 k prev inp g); [done|]. by apply IH2.
  - rewrite (IH1 k k' Hk). destruct (run fl r1 k prev inp g); [done|]. apply Hk.
  - destruct inp as [|c inp]; [done|]. cbn [lower_chars map].
    rewrite set_matches_lower by done.
    destruct (set_matches fl set c); [|done].
    apply (many_greedy_lower _ k k' (fun a => set_matches_lower fl set a Hfl) Hk (Some c)).
  - apply many_greedy_lower; [|done]. intros a. by apply set_matches_lower.
  - apply many_lazy_lower; [|done]. intros a. by apply set_matches_lower.
  - apply (IH1 (fun prev' inp' g' => k prev' inp' (<[n := consumed inp inp']> g'))).
    intros p i g'. rewrite consumed_lower.
    unfold lower_caps at 1. rewrite <- fmap_insert. apply Hk.
Qed.

Lemma match_at_lower fl r prev inp :
  ignorecase fl = true ->
  match_at fl r (Chr.lower <$> prev) (lower_chars inp)
  = lower_answer (match_at fl r prev inp).
Proof.
  intros Hfl. unfold match_at.
  replace (∅ : caps) with (lower_caps ∅) at 1 by apply fmap_empty.
  by apply run_lower.
Qed.

Lemma length_lower l : length (lower_chars l) = length l.
Proof. apply length_map. Qed.

Lemma scan_lower fl r skip prev inp :
  ignorecase fl = true ->
  scan fl r skip (Chr.lower <$> prev) (lower_chars inp)
  = map lower_piece (scan fl r skip prev inp).
Proof.
  intros Hfl. revert skip prev.
  induction inp as [|c inp IH]; intros skip prev; [done|].
  change (lower_chars (c :: inp)) with (Chr.lower c :: lower_chars inp).
  cbn [scan]. destruct skip as [|n]; [|apply (IH n (Some c))].
  change (Chr.lower c :: lower_chars inp) with (lower_chars (c :: inp)).
  rewrite match_at_lower by done.
  destruct (match_at fl r prev (c :: inp)) as [[rest g]|];
    cbn -[consumed lower_chars length scan].
  - rewrite consumed_lower, !length_lower. f_equal. apply (IH _ (Some c)).
  - f_equal. apply (IH 0 (Some c)).
Qed.

Lemma chars_lower s : Str.chars (Str.lower s) = lower_chars (Str.chars s).
Proof. unfold Str.lower. apply chars_of_chars. Qed.

Lemma matches_of_lower ps :
  matches_of (map lower_piece ps)
  = map (prod_map lower_chars lower_caps) (matches_of ps).
Proof.
  induction ps as [|[c|w g] ps IH]; [done|..].
  - exact IH.
  - change (matches_of (map lower_piece (Found w g :: ps)))
      with ((lower_chars w, lower_caps g) :: matches_of (map lower_piece ps)).
    by rewrite IH.
Qed.

Lemma group_lower g n : group (lower_caps g) n = Str.lower (group g n).
Proof.
  unfold group, lower_caps, Str.lower. rewrite lookup_fmap.
  destruct (g !! n) as [w|]; simpl; [|done].
  by rewrite chars_of_chars.
Qed.

(** Under IGNORECASE [findall] finds in the lower-cased text the
    lower-cased groups of what it finds in the text. *)
Lemma findall_lower fl r ngroups s :
  ignorecase fl = true ->
  findall fl r ngroups (Str.lower s) = map (map Str.lower) (findall fl r ngroups s).
Proof.
  intros Hfl. unfold findall.
  rewrite chars_lower, (scan_lower fl r 0 None _ Hfl), matches_of_lower, !map_map.
  apply map_ext. intros [w g]. cbn [snd prod_map]. rewrite map_map.
  apply map_ext. intros n. apply group_lower.
Qed.

Lemma findall1_lower fl r s :
  ignorecase fl = true ->
  findall1 fl r (Str.lower s) = map Str.lower (findall1 fl r s).
Proof.
  intros Hfl. unfold findall1.
  rewrite chars_lower, (scan_lower fl r 0 None _ Hfl), matches_of_lower, !map_map.
  apply map_ext. intros [w g]. apply group_lower.
Qed.

Lemma lstrip_lower l :
  Str.lstrip_chars (lower_chars l) = lower_chars (Str.lstrip_chars l).
Proof.
  induction l as [|c l IH]; [done|]. simpl. rewrite is_space_lower.
  by destruct (Chr.is_space c).
Qed.

Lemma rev_lower l : rev (lower_chars l) = lower_chars (rev l).
Proof. unfold lower_chars. symmetry. apply map_rev. Qed.

Lemma strip_lower s : Str.strip (Str.lower s) = Str.lower (Str.strip s).
Proof.
  unfold Str.strip, Str.strip_chars. rewrite chars_lower, lstrip_lower.
  unfold Str.lower. rewrite chars_of_chars. f_equal.
  by rewrite rev_lower, lstrip_lower, rev_lower.
Qed.

Lemma remove_semicolon_lower s :
  Str.remove_char ";" (Str.lower s) = Str.lower (Str.remove_char ";" s).
Proof.
  unfold Str.remove_char. rewrite chars_lower. unfold Str.lower.
  rewrite chars_of_chars. f_equal.
  induction (Str.chars s) as [|c l IH]; [done|]. simpl.
  rewrite semicolon_lower. destruct (Ascii.eqb c ";"); simpl; by rewrite IH.
Qed.

Lemma upper_of_lower s : Str.upper (Str.lower s) = Str.upper s.
Proof.
  unfold Str.upper. rewrite chars_lower. f_equal. unfold lower_chars.
  rewrite map_map. apply map_ext, upper_lower.
Qed.

Lemma cleaned_name_lower obj : cleaned_name (Str.lower obj) = cleaned_name obj.
Proof.
  unfold cleaned_name. by rewrite strip_lower, remove_semicolon_lower, upper_of_lower.
Qed.

Lemma lower_empty s : Str.lower s = "" <-> s = "".
Proof.
  split; [|by intros ->]. destruct s as [|c s]; [done|].
  unfold Str.lower. by simpl.
Qed.

Lemma add_object_lower objects obj :
  add_object objects (Str.lower obj) = add_object objects obj.
Proof.
  unfold add_object. rewrite cleaned_name_lower.
  destruct (decide (Str.lower obj = "")) as [H|H], (decide (obj = "")) as [H'|H'];
    try done.
  - apply (proj1 (lower_empty obj)) in H. contradiction.
  - destruct H. by apply (proj2 (lower_empty obj)).
Qed.

Lemma for_each_map {A B S} (f : A -> B) (body : S -> B -> result S) l acc :
  for_each body (map f l) acc = for_each (fun a x => body a (f x)) l acc.
Proof.
  revert acc. induction l as [|x l IH]; intros acc; [done|].
  simpl. destruct (body acc (f x)); simpl; [apply IH|done].
Qed.

Lemma for_each_ext {A S} (body body' : S -> A -> result S) l acc :
  (forall a x, body a x = body' a x) ->
  for_each body l acc = for_each body' l acc.
Proof.
  intros H. revert acc. induction l as [|x l IH]; intros acc; [done|].
  simpl. rewrite H. destruct (body' acc x); simpl; [apply IH|done].
Qed.

Lemma extract_objects_lower s : extract_objects (Str.lower s) = extract_objects s.
Proof.
  unfold extract_objects. rewrite findall_lower by done. rewrite for_each_map.
  apply for_each_ext. intros objects m. rewrite for_each_map.
  apply for_each_ext. intros a x. apply add_object_lower.
Qed.

Lemma extract_stored_procedures_lower s :
  extract_stored_procedures (Str.lower s) = extract_stored_procedures s.
Proof.
  unfold extract_stored_procedures.
  rewrite findall_lower, findall1_lower by done. rewrite for_each_map.
  match goal with
  | |- for_each ?b _ _ ≫= _ = for_each ?b' _ _ ≫= _ =>
      rewrite (for_each_ext b b')
  end.
  2:{ intros a [|x [|sp [|? ?]]]; try done. simpl. by rewrite upper_of_lower. }
  destruct (for_each _ (findall proc_flags create_pattern 2 s) ∅) as [p1|e]; [|done].
  rewrite !bind_Ok, for_each_map.
  match goal with
  | |- for_each ?b _ _ ≫= _ = for_each ?b' _ _ ≫= _ =>
      rewrite (for_each_ext b b')
  end; [done|].
  intros a sp. by rewrite upper_of_lower.
Qed.

(** X1.  On texts of the repertoire (code points below 128),
    [extract_objects] and [extract_stored_procedures] do not depend on the
    case of the letters: two such texts with the same lower-case form give
    the same results.  Outside the repertoire this fails in Python, where
    the Kelvin sign and [k] have the same lower-case form. *)
Theorem extraction_ignores_case s s' :
  ascii_text s = true -> ascii_text s' = true ->
  Str.lower s = Str.lower s' ->
  extract_objects s = extract_objects s' /\
  extract_stored_procedures s = extract_stored_procedures s'.
Proof.
  intros _ _ H. split.
  - by rewrite <- (extract_objects_lower s), H, extract_objects_lower.
  - by rewrite <- (extract_stored_procedures_lower s), H,
       extract_stored_procedures_lower.
Qed.

(** The theorem at a query in mixed case and the same in upper case. *)
Lemma extraction_ignores_case_witness :
  extract_objects "Select * From Sales.Orders; Exec Sp_Load"
  = extract_objects "SELECT * FROM SALES.ORDERS; EXEC SP_LOAD" /\
  extract_stored_procedures "Select * From Sales.Orders; Exec Sp_Load"
  = extract_stored_procedures "SELECT * FROM SALES.ORDERS; EXEC SP_LOAD".
Proof. apply extraction_ignores_case; reflexivity. Defined.

(** ** Texts without comment markers *)

Lemma occurs_cons p c l :
  occurs p (c :: l) = false -> Str.starts_chars p (c :: l) = false /\ occurs p l = false.
Proof. simpl. by intros [? ?]%orb_false_elim. Qed.

Lemma starts_chars_app p rest : Str.starts_chars p (p ++ rest) = true.
Proof. induction p as [|a p IH]; [done|]. simpl. by rewrite Ascii.eqb_refl. Qed.

Lemma remove_block_plain l : occurs opener l = false -> remove_block_comments l = l.
Proof.
  induction l as [|c l IH]; [done|]. intros [Hs Ho]%occurs_cons.
  rewrite remove_block_other, IH; [done..|].
  intros (body & rest & Heq). rewrite Heq in Hs.
  by rewrite starts_chars_app in Hs.
Qed.

Lemma remove_line_plain l : occurs dashes l = false -> remove_line_comments l = l.
Proof.
  induction l as [|c l IH]; [done|]. intros [Hs Ho]%occurs_cons.
  rewrite remove_line_other, IH; [done..|].
  intros (rest & Heq). rewrite Heq in Hs.
  by rewrite starts_chars_app in Hs.
Qed.

Lemma of_chars_chars s : Str.of_chars (Str.chars s) = s.
Proof. apply string_of_list_ascii_of_string. Qed.

(** X3.  On a text with no [/*] and no [--], [clean_sql] is [lower()]. *)
Theorem clean_sql_plain_text sql_text :
  occurs opener (Str.chars sql_text) = false ->
  occurs dashes (Str.chars sql_text) = false ->
  clean_sql sql_text = Str.lower sql_text.
Proof.
  intros Ho Hd. rewrite clean_sql_unfold.
  by rewrite (remove_block_plain _ Ho), (remove_line_plain _ Hd), of_chars_chars.
Qed.

(** The theorem at a query without comment markers, a single [-] and a
    single [/] included. *)
Lemma clean_sql_plain_text_witness :
  clean_sql "SELECT a - b, c / d FROM Sales.Orders"
  = Str.lower "SELECT a - b, c / d FROM Sales.Orders".
Proof. apply clean_sql_plain_text; reflexivity. Defined.

(** ** The characters of the names *)

Lemma upper_ident_char c : is_ident_char c = true -> is_name_char (Chr.upper c) = true.
Proof. by destruct c as [[] [] [] [] [] [] [] []]. Qed.

Lemma upper_proc_char c : is_proc_char c = true -> is_proc_name_char (Chr.upper c) = true.
Proof. by destruct c as [[] [] [] [] [] [] [] []]. Qed.

Lemma upper_token (cls cls' : ascii -> bool) tok :
  (forall c, cls c = true -> cls' (Chr.upper c) = true) ->
  tok ≠ [] -> Forall (fun a => cls a = true) tok ->
  Str.upper (Str.of_chars tok) ≠ "" /\
  Forall (fun a => cls' a = true) (Str.chars (Str.upper (Str.of_chars tok))).
Proof.
  intros Hcls Hne Htok. unfold Str.upper. rewrite !chars_of_chars. split.
  - destruct tok; [done|]. by simpl.
  - apply Forall_fmap. eapply Forall_impl; [done|]. intros a. apply Hcls.
Qed.

(** X4.  Every name [extract_objects] returns is non-empty and made of
    upper-case letters, digits, underscores and dots: no white space, no
    semicolon and no lower-case letter is left in a name. *)
Theorem object_names_plain sql_text :
  exists objects, extract_objects sql_text = Ok objects /\
    forall x, x ∈ objects ->
      x ≠ "" /\ Forall (fun a => is_name_char a = true) (Str.chars x).
Proof.
  destruct (extract_objects_spec sql_text) as (objects & Hobj & Hin).
  exists objects. split; [done|]. intros x Hx.
  apply Hin, contributes_captured, captured_names_object in Hx
    as (tok & (n & ph & _ & Hfol) & -> & _).
  apply follows_token in Hfol as [Hne Htok].
  by apply (upper_token is_ident_char is_name_char tok upper_ident_char).
Qed.

(** X5.  On a text of the repertoire (code points below 128), every name
    [extract_stored_procedures] returns is non-empty and made of
    upper-case letters, digits, underscores, dots and dollar signs.
    Outside the repertoire this fails in Python, where [\w] takes letters
    that have no upper case. *)
Theorem procedure_names_plain sql_text :
  ascii_text sql_text = true ->
  exists l, extract_stored_procedures sql_text = Ok l /\
    forall x, x ∈ l ->
      x ≠ "" /\ Forall (fun a => is_proc_name_char a = true) (Str.chars x).
Proof.
  intros _.
  destruct (extract_stored_procedures_spec sql_text) as (l & Hl & _ & _ & Hin).
  exists l. split; [done|]. intros x Hx.
  apply Hin, procedure_of_names in Hx as (tok & -> & Hfol).
  assert (tok ≠ [] /\ Forall (fun a => is_proc_char a = true) tok) as [Hne Htok].
  { destruct Hfol as [Hfol|Hfol]; by apply follows_token in Hfol. }
  by apply (upper_token is_proc_char is_proc_name_char tok upper_proc_char).
Qed.

(** The theorem at a definition and two invocations, a name with a dollar
    sign and a dotted name among them. *)
Lemma procedure_names_plain_witness :
  exists l, extract_stored_procedures
              "create procedure etl.load$1 as begin exec sp_a; call x.y_2; end" = Ok l /\
    forall x, x ∈ l ->
      x ≠ "" /\ Forall (fun a => is_proc_name_char a = true) (Str.chars x).
Proof. apply procedure_names_plain. reflexivity. Defined.

(** ** The keys of [categorize] *)

Lemma category_of_label seg : category_of seg ∈ labels.
Proof.
  unfold category_of, prefix_table, find, fst, snd, labels.
  repeat (case (Str.startswith _ seg); [by apply (bool_decide_unpack _)|]).
  by apply (bool_decide_unpack _).
Qed.

Lemma procedures_key_no_label : STORED_PROCEDURES ∉ labels.
Proof. by apply (bool_decide_unpack _). Qed.

Lemma categorize_loop_keys visit categories :
  (forall label l, categories !! label = Some l -> label ∈ labels /\ l ≠ []) ->
  exists categories', for_each categorize_step visit categories = Ok categories' /\
    forall label l, categories' !! label = Some l -> label ∈ labels /\ l ≠ [].
Proof.
  revert categories. induction visit as [|full_obj visit IH]; intros categories Hc.
  { by exists categories. }
  destruct (categorize_step_spec categories full_obj) as (seg & c1 & Hseg & Hstep & ->).
  rewrite for_each_cons, Hstep, bind_Ok. apply IH.
  intros label l. unfold append_to.
  destruct (decide (category_of seg = label)) as [<-|Hne].
  - rewrite lookup_insert_eq. intros [= <-]. split; [apply category_of_label|].
    by destruct (default [] (categories !! category_of seg)).
  - rewrite lookup_insert_ne by done. apply Hc.
Qed.

Lemma categorize_visit_keys visit :
  exists categories, categorize_visit visit = Ok categories /\
    forall label l, categories !! label = Some l -> label ∈ labels /\ l ≠ [].
Proof.
  apply categorize_loop_keys. intros k l0 H0. by rewrite lookup_empty in H0.
Qed.

(** X6.  Every key of the dictionary [categorize] returns is one of the
    six labels, and no key has an empty list: a category without a name
    has no entry. *)
Theorem categorize_labels (objects : gset string) :
  exists categories, categorize objects = Ok categories /\
    forall label l, categories !! label = Some l -> label ∈ labels /\ l ≠ [].
Proof.
  unfold categorize, categorize_visit.
  destruct (categorize_loop_keys (elements objects) ∅) as (c & Hc & Hkeys).
  { intros k l0 H0. by rewrite lookup_empty in H0. }
  by exists c.
Qed.

(** ** The procedures key of the pipeline *)

(** X7.  The procedures never overwrite a category: [categorize] makes no
    entry for the key of the procedures, the pipeline adds the list of
    [extract_stored_procedures] under that key, and the other entries are
    those of [categorize]. *)
Theorem pipeline_procedures_key sql_text :
  exists objects resolved_objects object_categories sp_list,
    extract_objects (clean_sql sql_text) = Ok objects /\
    remove_redundancy objects = Ok resolved_objects /\
    categorize resolved_objects = Ok object_categories /\
    extract_stored_procedures (clean_sql sql_text) = Ok sp_list /\
    object_categories !! STORED_PROCEDURES = None /\
    pipeline sql_text = Ok (<[STORED_PROCEDURES := sp_list]> object_categories) /\
    delete STORED_PROCEDURES (<[STORED_PROCEDURES := sp_list]> object_categories)
    = object_categories.
Proof.
  destruct (extract_objects_spec (clean_sql sql_text)) as (objects & Ho & _).
  destruct (remove_redundancy_spec objects) as (r & Hr & _).
  destruct (categorize_visit_keys (elements r)) as (c & Hc & Hkeys).
  destruct (extract_stored_procedures_spec (clean_sql sql_text)) as (l & Hl & _).
  assert (Hnone : c !! STORED_PROCEDURES = None).
  { destruct (c !! STORED_PROCEDURES) as [l0|] eqn:E; [|done].
    apply Hkeys in E as [Hin _]. by apply procedures_key_no_label in Hin. }
  exists objects, r, c, l. split_and!; try done.
  - unfold pipeline. cbv zeta. rewrite Ho, bind_Ok, Hr, bind_Ok.
    unfold categorize. by rewrite Hc, bind_Ok, Hl, bind_Ok.
  - by rewrite delete_insert_eq, delete_id.
Qed.

(** ** [remove_redundancy] loses no table *)

Lemma split_chars_plain sep l :
  existsb (Ascii.eqb sep) l = false -> Str.split_chars sep l = [l].
Proof.
  induction l as [|c l IH]; [done|]. simpl.
  intros [Hc Hl]%orb_false_elim. rewrite Ascii.eqb_sym, Hc. by rewrite (IH Hl).
Qed.

Lemma last_segment_plain x : ~ has_dot x -> last_segment x = Ok x.
Proof.
  unfold has_dot, Str.contains. intros H%not_true_is_false.
  unfold last_segment, Str.split. rewrite (split_chars_plain _ _ H). simpl.
  unfold Str.of_chars, Str.chars. by rewrite string_of_list_ascii_of_string.
Qed.

Lemma last_segment_dec y x : Decision (last_segment y = Ok x).
Proof.
  destruct (last_segment y) as [s|e].
  - destruct (decide (s = x)) as [->|Hne]; [by left|right]. by intros [= ->].
  - by right.
Defined.

(** X8.  No table is lost: after [remove_redundancy] every final segment
    of a name of the argument is still the final segment of a name that
    is kept. *)
Theorem remove_redundancy_keeps_tables (objects : gset string) :
  exists r, remove_redundancy objects = Ok r /\
    forall x seg, x ∈ objects -> last_segment x = Ok seg ->
      exists y, y ∈ r /\ last_segment y = Ok seg.
Proof.
  destruct (remove_redundancy_spec objects) as (r & Hr & Hres).
  exists r. split; [done|]. intros x seg Hx Hseg.
  destruct (decide (has_dot x)) as [Hd|Hd].
  { exists x. split; [|done]. apply Hres. split; [done|by left]. }
  rewrite (last_segment_plain x Hd) in Hseg. injection Hseg as <-.
  destruct (@decide (Exists (fun y => has_dot y /\ last_segment y = Ok x) (elements objects)))
    as [Hex|Hno].
  { apply Exists_dec. intros y. apply and_dec; [apply _|apply last_segment_dec]. }
  - apply Exists_exists in Hex as (y & Hy & Hdy & Hlast).
    exists y. split; [|done]. apply Hres. split; [by apply elem_of_elements|by left].
  - exists x. split; [|by apply last_segment_plain].
    apply Hres. split; [done|right]. intros (y & Hy & Hdy & Hlast).
    apply Hno, Exists_exists. exists y. by rewrite elem_of_elements.
Qed.

(** ** [load_config] *)

Lemma contains_elem_of c s : Str.contains c s = true <-> c ∈ Str.chars s.
Proof.
  unfold Str.contains. rewrite existsb_exists. split.
  - intros (x & Hx & ->%Ascii.eqb_eq). by apply list_elem_of_In.
  - intros H. exists c. split; [by apply list_elem_of_In|apply Ascii.eqb_refl].
Qed.

(** [split(c, 1)] gives two parts exactly when [c] occurs, the text before
    the first [c] and the text after it. *)
Lemma split1_chars_spec sep l :
  ((sep ∉ l) /\ split1_chars sep l = [l]) \/
  (exists a b, l = a ++ sep :: b /\ (sep ∉ a) /\ split1_chars sep l = [a; b]).
Proof.
  induction l as [|c l IH]; simpl.
  { left. split; [apply not_elem_of_nil|done]. }
  destruct (Ascii.eqb_spec c sep) as [->|Hc].
  - right. exists [], l. split_and!; [done|apply not_elem_of_nil|done].
  - destruct IH as [[Hno ->]|(a & b & -> & Ha & ->)].
    + left. split; [|done]. apply not_elem_of_cons. done.
    + right. exists (c :: a), b. split_and!; [done| |done].
      apply not_elem_of_cons. done.
Qed.

Lemma lstrip_elem_of c l :
  Chr.is_space c = false -> c ∈ l -> c ∈ Str.lstrip_chars l.
Proof.
  intros Hc. induction l as [|d l IH]; [done|]. simpl.
  destruct (Chr.is_space d) eqn:Hd; [|done].
  intros [->|H]%elem_of_cons; [congruence|by apply IH].
Qed.

Lemma elem_of_rev {A} (x : A) l : x ∈ rev l <-> x ∈ l.
Proof. rewrite !list_elem_of_In. symmetry. apply in_rev. Qed.

Lemma strip_elem_of c l :
  Chr.is_space c = false -> c ∈ l -> c ∈ Str.strip_chars l.
Proof.
  intros Hc H. unfold Str.strip_chars.
  apply elem_of_rev, lstrip_elem_of; [done|].
  by apply elem_of_rev, lstrip_elem_of.
Qed.

(** A line with an [=] assigns one key, and the loop stores it; a line
    without is passed over. *)
Lemma config_line_spec config line :
  (("="%char ∉ line) /\ config_line config (Str.of_chars line) = Ok config) \/
  (exists key value, assigns line key value /\
     config_line config (Str.of_chars line) = Ok (<[key := value]> config)).
Proof.
  unfold config_line.
  destruct (Str.contains "=" (Str.of_chars line)) eqn:E.
  - right. apply contains_elem_of in E. rewrite chars_of_chars in E.
    unfold split1, Str.strip. rewrite !chars_of_chars.
    destruct (split1_chars_spec "=" (Str.strip_chars line))
      as [[Hno _]|(a & b & Hl & Ha & ->)].
    { destruct Hno. by apply strip_elem_of. }
    exists (Str.of_chars (Str.strip_chars a)), (Str.of_chars (Str.strip_chars b)).
    split.
    + by exists a, b.
    + simpl. unfold Str.strip. by rewrite !chars_of_chars.
  - left. split; [|done]. intros H. rewrite <- chars_of_chars in H.
    apply contains_elem_of in H. congruence.
Qed.

(** *** Stripping *)

Lemma lstrip_head l :
  match Str.lstrip_chars l with [] => True | c :: _ => Chr.is_space c = false end.
Proof.
  induction l as [|c l IH]; [done|]. simpl.
  by destruct (Chr.is_space c) eqn:E.
Qed.

Lemma lstrip_suffix l : exists ws, l = ws ++ Str.lstrip_chars l.
Proof.
  induction l as [|c l [ws IH]]; [by exists []|]. simpl.
  destruct (Chr.is_space c); [|by exists []].
  exists (c :: ws). simpl. by rewrite <- IH.
Qed.

Lemma lstrip_fixed l :
  match l with [] => True | c :: _ => Chr.is_space c = false end ->
  Str.lstrip_chars l = l.
Proof. destruct l as [|c l]; [done|]. simpl. by intros ->. Qed.

Lemma strip_chars_fixed l : trimmed l -> Str.strip_chars l = l.
Proof.
  intros [Hh Hl]. unfold Str.strip_chars.
  rewrite (lstrip_fixed l Hh), (lstrip_fixed (rev l) Hl). apply rev_involutive.
Qed.

Lemma strip_chars_trimmed l : trimmed (Str.strip_chars l).
Proof.
  unfold Str.strip_chars.
  set (l1 := Str.lstrip_chars l). set (m := Str.lstrip_chars (rev l1)).
  split.
  - destruct (lstrip_suffix (rev l1)) as [ws Hws]. fold m in Hws.
    assert (Hl1 : l1 = rev m ++ rev ws).
    { by rewrite <- (rev_involutive l1), Hws, rev_app_distr. }
    pose proof (lstrip_head l) as Hh. fold l1 in Hh.
    destruct (rev m) as [|c t] eqn:E; [done|].
    rewrite Hl1 in Hh. exact Hh.
  - rewrite rev_involutive. apply lstrip_head.
Qed.

Lemma strip_chars_idemp l : Str.strip_chars (Str.strip_chars l) = Str.strip_chars l.
Proof. apply strip_chars_fixed, strip_chars_trimmed. Qed.

Lemma strip_fixed_trimmed s : Str.strip s = s -> trimmed (Str.chars s).
Proof.
  intros H. rewrite <- H. unfold Str.strip. rewrite chars_of_chars.
  apply strip_chars_trimmed.
Qed.

(** *** The first [=] of a line *)

Lemma first_occurrence_unique (sep : ascii) a b a' b' :
  a ++ sep :: b = a' ++ sep :: b' -> sep ∉ a -> sep ∉ a' -> a = a' /\ b = b'.
Proof.
  revert a'. induction a as [|c a IH]; intros [|c' a'] Heq Ha Ha'; simplify_eq/=.
  - done.
  - destruct Ha'. left.
  - destruct Ha. left.
  - apply not_elem_of_cons in Ha as [_ Ha]. apply not_elem_of_cons in Ha' as [_ Ha'].
    by destruct (IH a' ltac:(eassumption) Ha Ha') as [-> ->].
Qed.

Lemma assigns_unique line k v k' v' :
  assigns line k v -> assigns line k' v' -> k = k' /\ v = v'.
Proof.
  intros (a & b & Hl & Ha & -> & ->) (a' & b' & Hl' & Ha' & -> & ->).
  rewrite Hl in Hl'. by destruct (first_occurrence_unique _ _ _ _ _ Hl' Ha Ha') as [-> ->].
Qed.

Lemma lstrip_elem_of_inv (c : ascii) l : c ∈ Str.lstrip_chars l -> c ∈ l.
Proof.
  destruct (lstrip_suffix l) as [ws Hws]. intros H. rewrite Hws.
  apply elem_of_app. by right.
Qed.

Lemma strip_elem_of_inv (c : ascii) l : c ∈ Str.strip_chars l -> c ∈ l.
Proof.
  unfold Str.strip_chars. intros H.
  by apply elem_of_rev, lstrip_elem_of_inv, elem_of_rev, lstrip_elem_of_inv in H.
Qed.

Lemma assigns_has_equals line k v : assigns line k v -> "="%char ∈ line.
Proof.
  intros (a & b & Hl & _). apply strip_elem_of_inv. rewrite Hl.
  apply elem_of_app. right. left.
Qed.

(** *** The loop *)

Lemma last_assignment_cons line lines k v :
  last_assignment (line :: lines) k v <->
  last_assignment lines k v \/
  (assigns line k v /\ forall line' v', line' ∈ lines -> ~ assigns line' k v').
Proof.
  split.
  - intros ([|l0 lines1] & line0 & lines2 & Heq & Ha & Hno); simplify_eq/=.
    + by right.
    + left. by exists lines1, line0, lines2.
  - intros [(lines1 & line0 & lines2 & -> & Ha & Hno)|[Ha Hno]].
    + by exists (line :: lines1), line0, lines2.
    + by exists [], line, lines.
Qed.

Lemma config_loop_spec lines config :
  exists config',
    for_each config_line (map Str.of_chars lines) config = Ok config' /\
    forall k v, config' !! k = Some v <->
      last_assignment lines k v \/
      (config !! k = Some v /\
       forall line' v', line' ∈ lines -> ~ assigns line' k v').
Proof.
  revert config. induction lines as [|line lines IH]; intros config.
  { exists config. split; [done|]. intros k v. split.
    - intros H. right. split; [done|]. intros ? ? H'. by apply elem_of_nil in H'.
    - intros [(l1 & l0 & l2 & Heq & _)|[H _]]; [by destruct l1|done]. }
  change (map Str.of_chars (line :: lines))
    with (Str.of_chars line :: map Str.of_chars lines).
  rewrite for_each_cons.
  destruct (config_line_spec config line) as [[Hno ->]|(key & value & Ha & ->)];
    rewrite bind_Ok.
  - destruct (IH config) as (c & -> & Hc). exists c. split; [done|].
    intros k v. rewrite Hc, last_assignment_cons.
    assert (Hline : forall v', ~ assigns line k v').
    { intros v' H. by apply assigns_has_equals in H. }
    split.
    + intros [?|[? Hrest]]; [by left; left|right]. split; [done|].
      intros line' v' [->|?]%elem_of_cons; [apply Hline|by apply Hrest].
    + intros [[?|[H _]]|[? Hrest]]; [by left|by apply Hline in H|right].
      split; [done|]. intros line' v' ?. apply Hrest. by right.
  - destruct (IH (<[key := value]> config)) as (c & -> & Hc). exists c.
    split; [done|]. intros k v. rewrite Hc, last_assignment_cons.
    destruct (decide (key = k)) as [->|Hne].
    + rewrite lookup_insert_eq. split.
      * intros [?|[[= ->] Hrest]]; [by left; left|by left; right].
      * intros [[?|[Ha' Hrest]]|[_ Hrest]]; [by left| |].
        -- right. destruct (assigns_unique _ _ _ _ _ Ha Ha') as [_ ->]. done.
        -- destruct (Hrest line value); [left|done].
    + rewrite lookup_insert_ne by done. split.
      * intros [?|[? Hrest]]; [by left; left|right]. split; [done|].
        intros line' v' [->|?]%elem_of_cons; [|by apply Hrest].
        intros Ha'. by destruct (assigns_unique _ _ _ _ _ Ha Ha').
      * intros [[?|[Ha' _]]|[? Hrest]]; [by left| |right].
        -- by destruct (assigns_unique _ _ _ _ _ Ha Ha').
        -- split; [done|]. intros line' v' ?. apply Hrest. by right.
Qed.

(** X9.  [load_config] never raises on a text; a line without [=] sets
    nothing; a key is set to the value of the last line that assigns it;
    keys and values are stripped, and no key has an [=]. *)
Theorem load_config_last_wins text :
  exists config, load_config text = Ok config /\
    (forall k v, config !! k = Some v <->
       last_assignment (file_lines (Str.chars text)) k v) /\
    (forall k v, config !! k = Some v ->
       Str.strip k = k /\ Str.strip v = v /\ Str.contains "=" k = false).
Proof.
  unfold load_config.
  destruct (config_loop_spec (file_lines (Str.chars text)) ∅) as (c & -> & Hc).
  assert (Hspec : forall k v, c !! k = Some v <->
            last_assignment (file_lines (Str.chars text)) k v).
  { intros k v. rewrite Hc. split; [|by left].
    intros [?|[H _]]; [done|]. by rewrite lookup_empty in H. }
  exists c. split_and!; [done..|]. intros k v Hk.
  apply Hspec in Hk as (_ & line & _ & _ & (a & b & _ & Ha & -> & ->) & _).
  unfold Str.strip. rewrite !chars_of_chars, !strip_chars_idemp. split_and!; [done..|].
  destruct (Str.contains "=" (Str.of_chars (Str.strip_chars a))) eqn:E; [|done].
  apply contains_elem_of in E. rewrite chars_of_chars in E.
  by apply strip_elem_of_inv in E.
Qed.

(** *** Writing a configuration and reading it back *)

Lemma file_lines_line body rest :
  newline ∉ body ->
  file_lines (body ++ newline :: rest) = (body ++ [newline]) :: file_lines rest.
Proof.
  induction body as [|c body IH]; intros Hno; simpl.
  { reflexivity. }
  apply not_elem_of_cons in Hno as [Hc Hno].
  destruct (Ascii.eqb_spec c newline) as [->|_]; [done|].
  by rewrite (IH Hno).
Qed.

Lemma not_contains c s : Str.contains c s = false -> c ∉ Str.chars s.
Proof. intros H Hin. apply contains_elem_of in Hin. congruence. Qed.

Lemma file_lines_settings settings :
  forallb plain_setting settings = true ->
  file_lines (concat (map setting_line settings)) = map setting_line settings.
Proof.
  induction settings as [|[k v] settings IH]; [done|].
  intros [Hkv Hrest]%andb_prop.
  change (file_lines (setting_line (k, v) ++ concat (map setting_line settings))
          = setting_line (k, v) :: map setting_line settings).
  unfold plain_setting in Hkv. simpl in Hkv.
  repeat (apply andb_prop in Hkv as [Hkv ?]).
  assert (Hline : setting_line (k, v)
                  = (Str.chars k ++ "="%char :: Str.chars v) ++ [newline]).
  { unfold setting_line. simpl. by rewrite <- app_assoc. }
  rewrite Hline, <- app_assoc. simpl.
  rewrite file_lines_line; [by rewrite (IH Hrest)|].
  intros [Hin|[Hin|Hin]%elem_of_cons]%elem_of_app.
  - by apply (not_contains newline k); [apply negb_true_iff|].
  - done.
  - by apply (not_contains newline v); [apply negb_true_iff|].
Qed.

(** A line [key=value] with a plain key and value strips to itself
    without its newline. *)
Lemma strip_setting_line k v :
  plain_setting (k, v) = true ->
  Str.strip_chars (setting_line (k, v)) = Str.chars k ++ "="%char :: Str.chars v.
Proof.
  unfold plain_setting. simpl. intros H.
  repeat (apply andb_prop in H as [H ?]).
  apply bool_decide_eq_true in H. apply strip_fixed_trimmed in H as [Hk _].
  match goal with H : bool_decide (Str.strip v = v) = true |- _ =>
    apply bool_decide_eq_true, strip_fixed_trimmed in H as [_ Hv] end.
  unfold setting_line. simpl.
  set (l := Str.chars k ++ "="%char :: Str.chars v).
  assert (Hl : trimmed l).
  { split.
    - unfold l. destruct (Str.chars k); [done|exact Hk].
    - unfold l. rewrite rev_app_distr. simpl. rewrite <- app_assoc.
      destruct (rev (Str.chars v)); [done|exact Hv]. }
  replace (Str.chars k ++ "="%char :: Str.chars v ++ [newline]) with (l ++ [newline])
    by (unfold l; by rewrite <- app_assoc).
  unfold Str.strip_chars.
  assert (Hls : Str.lstrip_chars (l ++ [newline]) = l ++ [newline]).
  { apply lstrip_fixed. destruct Hl as [Hh _]. unfold l in *.
    destruct (Str.chars k); [done|exact Hh]. }
  rewrite Hls, rev_app_distr. simpl.
  destruct Hl as [_ Hlast]. rewrite (lstrip_fixed _ Hlast). apply rev_involutive.
Qed.

Lemma config_line_setting config k v :
  plain_setting (k, v) = true ->
  config_line config (Str.of_chars (setting_line (k, v))) = Ok (<[k := v]> config).
Proof.
  intros Hkv. pose proof (strip_setting_line k v Hkv) as Hstrip.
  destruct (config_line_spec config (setting_line (k, v)))
    as [[Hno _]|(key & value & (a & b & Hl & Ha & -> & ->) & ->)].
  { destruct Hno. unfold setting_line. apply elem_of_app. right. left. }
  rewrite Hstrip in Hl.
  unfold plain_setting in Hkv. simpl in Hkv.
  repeat (apply andb_prop in Hkv as [Hkv ?]).
  apply bool_decide_eq_true in Hkv.
  match goal with H : bool_decide (Str.strip v = v) = true |- _ =>
    apply bool_decide_eq_true in H; rename H into Hv end.
  match goal with H : negb (Str.contains "=" k) = true |- _ =>
    apply negb_true_iff, not_contains in H; rename H into Hk end.
  destruct (first_occurrence_unique _ _ _ _ _ Hl Hk Ha) as [<- <-].
  unfold Str.strip in Hkv, Hv. by rewrite Hkv, Hv.
Qed.

Lemma config_loop_settings settings config :
  forallb plain_setting settings = true ->
  for_each config_line (map Str.of_chars (map setting_line settings)) config
  = Ok (foldl (fun c kv => <[kv.1 := kv.2]> c) config settings).
Proof.
  revert config. induction settings as [|[k v] settings IH]; intros config; [done|].
  simpl. intros [Hkv Hrest]%andb_prop.
  change (for_each config_line (Str.of_chars (setting_line (k, v)) ::
            map Str.of_chars (map setting_line settings)) config)
    with (config_line config (Str.of_chars (setting_line (k, v)))
          ≫= for_each config_line (map Str.of_chars (map setting_line settings))).
  rewrite (config_line_setting config k v Hkv), bind_Ok. by apply IH.
Qed.

Lemma load_config_settings settings :
  forallb plain_setting settings = true ->
  load_config (config_text settings)
  = Ok (foldl (fun c kv => <[kv.1 := kv.2]> c) ∅ settings).
Proof.
  intros H. unfold load_config, config_text.
  rewrite chars_of_chars, (file_lines_settings settings H).
  by apply config_loop_settings.
Qed.

Lemma foldl_insert_list_to_map (settings : list (string * string)) :
  foldl (fun (c : gmap string string) kv => <[kv.1 := kv.2]> c) ∅ settings
  = list_to_map (rev settings).
Proof.
  rewrite <- (rev_involutive settings) at 1.
  induction (rev settings) as [|[k v] l IH]; [done|].
  simpl. rewrite foldl_app. simpl. by rewrite IH.
Qed.

(** X10.  Reading back a configuration written one [key=value] line per
    setting gives the settings, the last one of a key winning, when keys
    and values are stripped and on one line and no key has an [=]; the
    value may have one. *)
Theorem load_config_round_trip settings :
  forallb plain_setting settings = true ->
  load_config (config_text settings) = Ok (list_to_map (rev settings)).
Proof.
  intros H. rewrite (load_config_settings settings H).
  by rewrite foldl_insert_list_to_map.
Qed.

(** The theorem at three settings, a key set twice and a value with an
    [=]. *)
Lemma load_config_round_trip_witness :
  load_config (config_text [("input_file_path", "in.sql"); ("output_file_name", "a = b");
                            ("input_file_path", "other.sql")])
  = Ok (list_to_map (rev [("input_file_path", "in.sql"); ("output_file_name", "a = b");
                          ("input_file_path", "other.sql")])).
Proof. apply load_config_round_trip. reflexivity. Defined.

(** ** [save_output] and the end of [main] *)

Lemma od_update_lookup key f d :
  (list_to_map (od_update key f d) : gmap string (list string))
  = <[key := f (default [] ((list_to_map d : gmap string (list string)) !! key))]>
      (list_to_map d).
Proof.
  induction d as [|[k v] d IH]; [done|]. simpl.
  destruct (String.eqb_spec k key) as [->|Hne]; simpl.
  - by rewrite lookup_insert_eq, insert_insert_eq.
  - rewrite IH, lookup_insert_ne by done. by apply insert_insert_ne.
Qed.

Lemma od_update_keys key f d :
  (od_update key f d).*1 = if bool_decide (key ∈ d.*1) then d.*1 else d.*1 ++ [key].
Proof.
  induction d as [|[k v] d IH]; [done|]. cbn [od_update].
  destruct (String.eqb_spec k key) as [->|Hne]; rewrite !fmap_cons; cbn [fst].
  - by rewrite bool_decide_eq_true_2 by left.
  - rewrite IH. destruct (decide (key ∈ d.*1)) as [Hin|Hnin].
    + by rewrite !bool_decide_eq_true_2 by (done || by right).
    + rewrite !bool_decide_eq_false_2; [done| |done].
      intros [?|?]%elem_of_cons; [by subst|done].
Qed.

Lemma od_update_NoDup key f d : NoDup d.*1 -> NoDup (od_update key f d).*1.
Proof.
  intros H. rewrite od_update_keys. case_bool_decide as Hin; [done|].
  apply NoDup_app. split_and!; [done| |apply NoDup_singleton].
  intros x Hx ->%list_elem_of_singleton. done.
Qed.


Lemma categorize_ordered_step_spec categories full_obj :
  exists seg, last_segment full_obj = Ok seg /\
    categorize_ordered_step categories full_obj
    = Ok (od_append_to (category_of seg) full_obj categories) /\
    categorize_step (list_to_map categories) full_obj
    = Ok (append_to (category_of seg) full_obj (list_to_map categories)).
Proof.
  destruct (last_segment_ok full_obj) as [seg Hseg].
  exists seg. unfold categorize_ordered_step, categorize_step. rewrite Hseg, !bind_Ok.
  unfold category_of, prefix_table, find, fst, snd.
  repeat (case (Str.startswith _ seg); [done|]).
  done.
Qed.

Lemma categorize_ordered_loop visit categories :
  NoDup categories.*1 -> Forall (fun k => k ∈ labels) categories.*1 ->
  exists categories',
    for_each categorize_ordered_step visit categories = Ok categories' /\
    for_each categorize_step visit (list_to_map categories) = Ok (list_to_map categories') /\
    NoDup categories'.*1 /\ Forall (fun k => k ∈ labels) categories'.*1.
Proof.
  revert categories. induction visit as [|full_obj visit IH]; intros categories Hnd Hk.
  { by exists categories. }
  destruct (categorize_ordered_step_spec categories full_obj) as (seg & _ & Ho & Hm).
  rewrite !for_each_cons, Ho, Hm, !bind_Ok.
  destruct (IH (od_append_to (category_of seg) full_obj categories))
    as (c & Hc & Hc' & Hnd' & Hk').
  - by apply od_update_NoDup.
  - unfold od_append_to. rewrite od_update_keys. case_bool_decide; [done|].
    apply Forall_app. split; [done|]. apply Forall_singleton, category_of_label.
  - exists c. split_and!; try done.
    rewrite <- Hc'. unfold od_append_to, append_to. by rewrite od_update_lookup.
Qed.

(** X11.  [categorize] on the [dict] with its order of keys never raises,
    has each key once, all of them labels, and holds under each key the
    list that the map of [categorize_visit] holds. *)
Theorem categorize_ordered_agrees visit :
  exists categories,
    categorize_ordered visit = Ok categories /\
    categorize_visit visit = Ok (list_to_map categories) /\
    NoDup categories.*1 /\ Forall (fun k => k ∈ labels) categories.*1.
Proof.
  destruct (categorize_ordered_loop visit []) as (c & H1 & H2 & H3 & H4);
    [apply NoDup_nil_2|apply Forall_nil_2|].
  by exists c.
Qed.





(** X12.  What [save_output] writes for a category does not depend on the
    order of its list: the order in which [categorize] met the names is
    not seen in the file. *)
Theorem save_section_Permutation category items items' :
  items ≡ₚ items' -> save_section category items = save_section category items'.
Proof.
  intros H. unfold save_section.
  rewrite (Permutation_length H).
  assert (Hs : sorted items = sorted items').
  { apply (StronglySorted_unique String.le); try apply sorted_StronglySorted.
    by rewrite !sorted_Permutation. }
  by rewrite Hs.
Qed.

(** The theorem at a list of three names and a rotation of it. *)
Lemma save_section_Permutation_witness :
  save_section "OTHER" ["B.T"; "A.T"; "C"] = save_section "OTHER" ["C"; "B.T"; "A.T"].
Proof.
  apply save_section_Permutation.
  change ["B.T"; "A.T"; "C"] with (["B.T"; "A.T"] ++ ["C"]).
  apply Permutation_app_comm.
Defined.

